(** * Sentiment analyser: the lexicon fallback, the label mapper and the
      strategy selector, embedded from [src/core.py], [src/fallback.py],
      [src/strategy.py] and [src/ml.py].

    Conventions of the embedding.
    - A Python [str] is a sequence of Unicode code points: [str := list N].
    - A Python [float] is an IEEE 754 binary64 number: Rocq's primitive
      [float], whose operations round to nearest-even as CPython's do.
    - A Python [set] of strings is a [gset str]; iterating over a set is
      [set_fold], and what is computed by such an iteration is shown not to
      depend on its order.
    - [str.lower] consults the Unicode character database, which is not part
      of the repository: its tables are the fields of the class
      [CaseTables], and the facts used about them are the class [CaseLaws];
      an instance covering Basic Latin runs the functions on concrete texts.
    - The module variables of [strategy.py] and the exceptions of the model
      loader are threaded through a state-and-error monad. *)

From Stdlib Require Import NArith ZArith List Bool Lia Floats String Ascii.
From stdpp Require Import base decidable countable gmap sets list fin_sets.
Import ListNotations.

#[local] Open Scope N_scope.

(** * Part I: the program *)

(** ** Text *)

Definition char : Type := N.
Definition str : Type := list char.

(** An ASCII literal as a sequence of code points. *)
Definition u (s : string) : str :=
  List.map N_of_ascii (list_ascii_of_string s).

(** [str.isspace] for one code point, which is also the class [\s] of [re]
    on [str] patterns and the separator class of [str.split()]. *)
Definition isspace (c : char) : bool :=
  ((0x09 <=? c) && (c <=? 0x0D)) || ((0x1C <=? c) && (c <=? 0x20))
  || (c =? 0x85) || (c =? 0xA0) || (c =? 0x1680)
  || ((0x2000 <=? c) && (c <=? 0x200A))
  || (c =? 0x2028) || (c =? 0x2029) || (c =? 0x202F) || (c =? 0x205F)
  || (c =? 0x3000).

Definition SPACE : char := 0x20.
Definition EXCLAMATION : char := 0x21.
Definition CAPITAL_SIGMA : char := 0x3A3.
Definition FINAL_SIGMA : char := 0x3C2.
Definition SMALL_SIGMA : char := 0x3C3.

(** The part of the Unicode character database that [str.lower] reads: the
    full lowercase mapping of a code point and the two properties of the
    final-sigma rule. *)
Class CaseTables := {
  to_lower_full : char -> list char;
  is_cased : char -> bool;
  is_case_ignorable : char -> bool
}.

Fixpoint drop_while (p : char -> bool) (s : str) : str :=
  match s with
  | [] => []
  | c :: r => if p c then drop_while p r else s
  end.

Section Lower.
Context `{CaseTables}.

(** CPython's rule for the capital sigma: it is in final position when a
    cased letter precedes it and none follows, case-ignorable characters
    being skipped on both sides. *)
Definition final_sigma (before_rev after : str) : bool :=
  match drop_while is_case_ignorable before_rev with
  | [] => false
  | c :: _ =>
      is_cased c &&
      match drop_while is_case_ignorable after with
      | [] => true
      | d :: _ => negb (is_cased d)
      end
  end.

(** [before_rev] holds the characters already read, the last one first. *)
Fixpoint lower_from (before_rev s : str) : str :=
  match s with
  | [] => []
  | c :: r =>
      (if c =? CAPITAL_SIGMA
       then [if final_sigma before_rev r then FINAL_SIGMA else SMALL_SIGMA]
       else to_lower_full c)
      ++ lower_from (c :: before_rev) r
  end.

(** [text.lower()] *)
Definition lower (text : str) : str := lower_from [] text.

End Lower.

(** [re.sub(r'\s+', ' ', text)]: every maximal run of whitespace becomes one
    space; [in_run] tells that the previous character was whitespace. *)
Fixpoint collapse_ws (in_run : bool) (s : str) : str :=
  match s with
  | [] => []
  | c :: r =>
      if isspace c
      then (if in_run then collapse_ws true r else SPACE :: collapse_ws true r)
      else c :: collapse_ws false r
  end.

Definition re_sub_ws (text : str) : str := collapse_ws false text.

(** [s.strip(chars)], with the character class as a predicate. *)
Definition lstrip_by (p : char -> bool) (s : str) : str := drop_while p s.
Definition rstrip_by (p : char -> bool) (s : str) : str :=
  rev (drop_while p (rev s)).
Definition strip_by (p : char -> bool) (s : str) : str :=
  rstrip_by p (lstrip_by p s).

(** [text.strip()] *)
Definition strip (text : str) : str := strip_by isspace text.

(** [text.split()]: the maximal runs of non-whitespace, in order; [cur_rev]
    is the run being read, reversed. *)
Fixpoint split_from (cur_rev s : str) : list str :=
  match s with
  | [] => match cur_rev with [] => [] | _ => [rev cur_rev] end
  | c :: r =>
      if isspace c
      then match cur_rev with
           | [] => split_from [] r
           | _ => rev cur_rev :: split_from [] r
           end
      else split_from (c :: cur_rev) r
  end.

Definition split (text : str) : list str := split_from [] text.

Definition nonempty (t : str) : bool :=
  match t with [] => false | _ => true end.

Section Core.
Context `{CaseTables}.

(** [core.normalize] *)
Definition normalize (text : str) : str :=
  let text := lower text in
  let text := re_sub_ws text in
  strip text.

(** [core.tokenize] *)
Definition tokenize (text : str) : list str :=
  let normalized := normalize text in
  List.filter nonempty (split normalized).

End Core.

(** The Unicode tables restricted to Basic Latin, with the Greek sigma for
    the one context rule of [lower]. *)
Definition is_upper_latin (c : char) : bool := (0x41 <=? c) && (c <=? 0x5A).
Definition is_lower_latin (c : char) : bool := (0x61 <=? c) && (c <=? 0x7A).

#[export] Instance basic_latin : CaseTables := {
  to_lower_full c :=
    if is_upper_latin c then [c + 0x20]
    else if c =? CAPITAL_SIGMA then [SMALL_SIGMA]
    else [c];
  is_cased c :=
    is_upper_latin c || is_lower_latin c
    || (c =? CAPITAL_SIGMA) || (c =? FINAL_SIGMA) || (c =? SMALL_SIGMA);
  is_case_ignorable c :=
    (c =? 0x27) || (c =? 0x2E) || (c =? 0x3A) || (c =? 0x5E) || (c =? 0x60)
}.

(** ** Numbers *)

#[local] Open Scope float_scope.
(* A decimal literal denotes the nearest binary64 number, as in Python. *)
#[local] Set Warnings "-inexact-float".

(** Python's two-argument [max] and [min] keep the first argument unless the
    second is strictly greater (smaller). *)
Definition py_max (a b : float) : float := if PrimFloat.ltb a b then b else a.
Definition py_min (a b : float) : float := if PrimFloat.ltb b a then b else a.

(** [float(n)] for a Python [int]: the nearest binary64 number. *)
Definition float_of_int (n : Z) : float :=
  SF2Prim (binary_normalize prec emax n 0 false).

(** [n ** 0.5] on the [int] [n >= 0]. CPython hands [float(n)] and [0.5] to
    the [pow] of the C library, whose last bit depends on the platform; it is
    taken here as correctly rounded, which makes it the square root. *)
Definition pow_half (n : Z) : float := PrimFloat.sqrt (float_of_int n).

(** [core.clamp_unit] *)
Definition clamp_unit (x : float) : float := py_max (-1.0) (py_min 1.0 x).

(** The three strings that [label_from_score] returns. *)
Inductive label : Set := positive | negative | neutral.

(** [core.label_from_score] *)
Definition label_from_score (score pos_threshold neg_threshold : float) : label :=
  if PrimFloat.leb pos_threshold score then positive
  else if PrimFloat.leb score neg_threshold then negative
  else neutral.

Definition default_pos_threshold : float := 0.10.
Definition default_neg_threshold : float := -0.10.

(** ** The lexicon of [fallback.py] *)

Definition words (l : list string) : gset str := list_to_set (List.map u l).

Definition POS_WORDS : gset str := words
  ["love"; "great"; "amazing"; "excellent"; "fantastic";
   "wonderful"; "awesome"; "happy"; "best"; "enjoyed";
   "recommend"; "perfect"; "brilliant"; "outstanding";
   "good"; "nice"; "fine"; "super"; "beautiful"]%string.

Definition NEG_WORDS : gset str := words
  ["hate"; "terrible"; "awful"; "horrible"; "worst";
   "bad"; "disappointed"; "garbage"; "waste"; "broken";
   "frustrated"; "upset"; "never"; "poor"; "useless";
   "worst"; "disgusting"; "pathetic"]%string.

Definition NEGATORS : gset str := words
  ["not"; "no"; "never"; "don't"; "doesn't"; "didn't";
   "won't"; "can't"; "cannot"; "neither"; "nor"]%string.

Definition BOOSTERS : gset str := words
  ["very"; "extremely"; "absolutely"; "really"; "so";
   "highly"; "completely"; "totally"; "utterly"]%string.

Definition DAMPENERS : gset str := words
  ["somewhat"; "slightly"; "barely"; "hardly"; "maybe";
   "perhaps"; "kind of"; "sort of"]%string.

(** The glyphs, by their code points; the heart is followed by the
    variation selector U+FE0F. *)
Definition EMOJI_POS : gset str := list_to_set
  [[0x1F60A]; [0x1F600]; [0x1F603]; [0x2764; 0xFE0F]; [0x1F44D]; [0x1F389];
   [0x2728]]%N.

Definition EMOJI_NEG : gset str := list_to_set
  [[0x1F621]; [0x1F622]; [0x1F61E]; [0x1F44E]; [0x1F494]; [0x1F620]]%N.

(** [w in S] *)
Definition mem (w : str) (S : gset str) : bool := bool_decide (w ∈ S).

(** ** The fallback scorer *)

(** The characters that [token.strip] removes: . , ! ? ; : and the double
    and single quote marks. *)
Definition PUNCT : str := [0x2E; 0x2C; 0x21; 0x3F; 0x3B; 0x3A; 0x22; 0x27]%N.
Definition is_punct (c : char) : bool := existsb (N.eqb c) PUNCT.

(** [sub in text] on strings. *)
Fixpoint starts_with (sub text : str) : bool :=
  match sub, text with
  | [], _ => true
  | _ :: _, [] => false
  | a :: sub', b :: text' => N.eqb a b && starts_with sub' text'
  end.

Fixpoint contains (sub text : str) : bool :=
  starts_with sub text ||
  match text with
  | [] => false
  | _ :: text' => contains sub text'
  end.

(** [text.count(c)] for a needle of one character. *)
Definition count_char (c : char) (text : str) : nat :=
  List.length (List.filter (N.eqb c) text).

(** The variables of the scoring loop. *)
Record pass_state := PassState {
  score : float;
  negation_active : bool;
  booster_active : bool;
  dampener_active : bool
}.

Definition initial_state : pass_state := PassState 0.0 false false false.

(** [word = token.strip(...)] *)
Definition stripped (token : str) : str := strip_by is_punct token.

(** The [if]/[elif]/[else] that sets [word_score]. *)
Definition base_score (word : str) : float :=
  if mem word POS_WORDS then 0.7
  else if mem word NEG_WORDS then -0.7
  else 0.0.

(** One iteration of [for i, token in enumerate(tokens)]. *)
Definition token_step (st : pass_state) (token : str) : pass_state :=
  let word := stripped token in
  if mem word NEGATORS then
    PassState (score st) true (booster_active st) (dampener_active st)
  else if mem word BOOSTERS then
    PassState (score st) (negation_active st) true (dampener_active st)
  else if mem word DAMPENERS then
    PassState (score st) (negation_active st) (booster_active st) true
  else
    let word_score := base_score word in
    let '(word_score, negation) :=
      if negation_active st then (word_score * -1.0, false)
      else (word_score, negation_active st) in
    let '(word_score, booster) :=
      if booster_active st then (word_score * 1.8, false)
      else (word_score, booster_active st) in
    let '(word_score, dampener) :=
      if dampener_active st then (word_score * 0.5, false)
      else (word_score, dampener_active st) in
    PassState (score st + word_score) negation booster dampener.

Definition token_pass (tokens : list str) : pass_state :=
  fold_left token_step tokens initial_state.

(** [if exclamation_count > 0: score += 0.1 * exclamation_count] *)
Definition add_exclamations (normalized : str) (score : float) : float :=
  let exclamation_count := count_char EXCLAMATION normalized in
  if (0 <? exclamation_count)%nat
  then score + 0.1 * float_of_int (Z.of_nat exclamation_count)
  else score.

(** [for emoji in glyphs: if emoji in text: score += delta] *)
Definition add_emojis (glyphs : gset str) (delta : float) (text : str)
    (score : float) : float :=
  set_fold (fun emoji score => if contains emoji text then score + delta else score)
           score glyphs.

(** The division by the length-dependent factor. *)
Definition length_normalize (n : nat) (score : float) : float :=
  if (0 <? n)%nat then
    if (n <=? 3)%nat
    then score / py_max 1.0 (float_of_int (Z.of_nat n) * 0.6)
    else score / pow_half (Z.of_nat n)
  else score.

Section Fallback.
Context `{CaseTables}.

(** [analyze_fallback_score] up to the emoji loops: the score as it stands
    before the division by the length factor. *)
Definition raw_total (text : str) : float :=
  let normalized := normalize text in
  let tokens := tokenize normalized in
  let score := score (token_pass tokens) in
  let score := add_exclamations normalized score in
  let score := add_emojis EMOJI_POS 0.3 text score in
  add_emojis EMOJI_NEG (-0.3) text score.

(** [fallback.analyze_fallback_score] *)
Definition analyze_fallback_score (text : str) : float :=
  let normalized := normalize text in
  let tokens := tokenize normalized in
  let score := raw_total text in
  let score := length_normalize (List.length tokens) score in
  clamp_unit score.

(** [fallback.analyze_fallback] *)
Definition analyze_fallback (text : str) : label :=
  let score := analyze_fallback_score text in
  label_from_score score default_pos_threshold default_neg_threshold.

End Fallback.

(** ** The strategy selector *)

(** A Python exception, by the name of its class; every class here derives
    from [Exception], the class that [_load_model_once] catches. *)
Definition exn : Type := string.

Inductive result (A : Type) : Type :=
| Return (a : A)
| Raise (e : exn).
Arguments Return {A} a.
Arguments Raise {A} e.

(** The module-level variables of [strategy.py]; [model] is the type of the
    dictionary that [joblib.load] unpickles. *)
Record cache_state (model : Type) := CacheState {
  _MODEL_CACHE : option model;
  _MODEL_LOADED : bool
}.
Arguments CacheState {model} _ _.
Arguments _MODEL_CACHE {model} _.
Arguments _MODEL_LOADED {model} _.

Definition initial_cache {model : Type} : cache_state model :=
  CacheState None false.

(** Computations that read and write the module variables and may raise. *)
Definition M (model A : Type) : Type :=
  cache_state model -> result A * cache_state model.

Definition ret {model A} (a : A) : M model A := fun st => (Return a, st).
Definition bind {model A B} (m : M model A) (k : A -> M model B) : M model B :=
  fun st =>
    match m st with
    | (Return a, st') => k a st'
    | (Raise e, st') => (Raise e, st')
    end.
Definition lift {model A} (r : result A) : M model A := fun st => (r, st).
Definition get {model} : M model (cache_state model) := fun st => (Return st, st).
Definition put {model} (st : cache_state model) : M model unit :=
  fun _ => (Return tt, st).

(** [try: body except Exception: handler] *)
Definition try_except {model A} (body : M model A) (handler : exn -> M model A)
    : M model A :=
  fun st =>
    match body st with
    | (Return a, st') => (Return a, st')
    | (Raise e, st') => handler e st'
    end.

Notation "'do' x <- m ; k" := (bind m (fun x => k))
  (at level 10, x name, m at level 100, k at level 200, only parsing).
Notation "'run' m ; k" := (bind m (fun _ => k))
  (at level 10, m at level 100, k at level 200, only parsing).

(** [d[key]] on a dictionary of probabilities. *)
Definition getitem (d : gmap str float) (key : string) : result float :=
  match d !! u key with
  | Some p => Return p
  | None => Raise "KeyError"%string
  end.

Section Strategy.
Context `{CaseTables}.
Context {model : Type}.

(** The world outside the program: [Path(p).exists()]; [src.ml.load_model]
    with the import of [src.ml] that precedes it; [ml.predict_proba], whose
    body is calls into the statistics library. *)
Variable path_exists : str -> bool.
Variable load_model : str -> result model.
Variable predict_proba : model -> str -> result (gmap str float).

(** [strategy._load_model_once] *)
Definition _load_model_once (model_path : str) : M model (option model) :=
  do st <- get;
  if _MODEL_LOADED st then ret (_MODEL_CACHE st)
  else
    run put (CacheState (_MODEL_CACHE st) true);
    if negb (path_exists model_path) then ret None
    else
      try_except
        (do m <- lift (load_model model_path);
         run put (CacheState (Some m) true);
         ret (Some m))
        (fun _ => ret None).

(** [ml.analyze_ml_score] *)
Definition analyze_ml_score (model_dict : model) (text : str) : M model float :=
  do probs <- lift (predict_proba model_dict text);
  do p <- lift (getitem probs "positive");
  do n <- lift (getitem probs "negative");
  ret (clamp_unit (p - n)).

(** [ml.analyze_ml] *)
Definition analyze_ml (model_dict : model) (text : str) : M model label :=
  do score <- analyze_ml_score model_dict text;
  ret (label_from_score score default_pos_threshold default_neg_threshold).

(** [strategy.analyze_strategy] *)
Definition analyze_strategy (text model_path : str) : M model label :=
  do model <- _load_model_once model_path;
  match model with
  | Some model => analyze_ml model text
  | None => ret (analyze_fallback text)
  end.

(** [strategy.analyze_strategy_score] *)
Definition analyze_strategy_score (text model_path : str) : M model float :=
  do model <- _load_model_once model_path;
  match model with
  | Some model => analyze_ml_score model text
  | None => ret (analyze_fallback_score text)
  end.

End Strategy.

(** ** Inference and data loading of [ml.py] *)

(** [LABELS] *)
Definition LABELS : list str := [u "negative"; u "neutral"; u "positive"].

(** [{label: float(prob) for label, prob in pairs}]: the pairs are entered in
    order, a later pair replacing an earlier one of the same label. *)
Definition dict_of_pairs (pairs : list (str * float)) : gmap str float :=
  fold_left (fun d kv => <[kv.1 := kv.2]> d) pairs ∅.

Section Inference.

(** A Python object held by the model dictionary. *)
Variable obj : Type.
(** The statistics library: [clf.predict_proba(vectorizer.transform([text]))[0]]
    for the objects [vectorizer] and [clf], and the iteration of the object
    stored under the key labels. *)
Variable class_probabilities : obj -> obj -> str -> result (list float).
Variable iterate_labels : obj -> result (list str).

(** [model_dict[key]] *)
Definition model_getitem (model_dict : gmap str obj) (key : string) : result obj :=
  match model_dict !! u key with
  | Some v => Return v
  | None => Raise "KeyError"%string
  end.

(** [ml.predict_proba] *)
Definition predict_proba (model_dict : gmap str obj) (text : str)
    : result (gmap str float) :=
  match model_getitem model_dict "vectorizer" with
  | Raise e => Raise e
  | Return vectorizer =>
  match model_getitem model_dict "model" with
  | Raise e => Raise e
  | Return clf =>
  match model_getitem model_dict "labels" with
  | Raise e => Raise e
  | Return labels =>
  match class_probabilities vectorizer clf text with
  | Raise e => Raise e
  | Return probs =>
  match iterate_labels labels with
  | Raise e => Raise e
  | Return labels => Return (dict_of_pairs (zip labels probs))
  end end end end end.

End Inference.

Definition TAB : char := 0x09%N.

(** [line.split("\t", 1)]: the line itself when it has no tab, else the part
    before the first tab and the part after it. *)
Fixpoint split_tab_once (before_rev line : str) : list str :=
  match line with
  | [] => [rev before_rev]
  | c :: r =>
      if (c =? TAB)%N then [rev before_rev; r]
      else split_tab_once (c :: before_rev) r
  end.

(** One iteration of [for line in f] in [ml.load_tsv], on the two lists
    being built. *)
Definition load_tsv_line (acc : list str * list str) (line : str)
    : list str * list str :=
  let line := strip line in
  if negb (nonempty line) then acc
  else
    let parts := split_tab_once [] line in
    if negb (List.length parts =? 2)%nat then acc
    else
      match parts with
      | [text; label] => (acc.1 ++ [text], acc.2 ++ [label])
      | _ => acc
      end.

(** [ml.load_tsv], on the lines that iterating the opened file yields. *)
Definition load_tsv (lines : list str) : list str * list str :=
  fold_left load_tsv_line lines ([], []).

(** * Part II: the vocabulary of the specification *)

(** The kinds of token of the scoring pass: the modifier checks come in the
    order negator, booster, dampener, and anything else is scored. *)
Inductive token_kind : Set := Negator | Booster | Dampener | Scoreable.

Definition kind_of (word : str) : token_kind :=
  if mem word NEGATORS then Negator
  else if mem word BOOSTERS then Booster
  else if mem word DAMPENERS then Dampener
  else Scoreable.

(** The active flags applied to a base contribution: negation first, then
    the booster, then the dampener. *)
Definition negated (active : bool) (x : float) : float :=
  if active then x * -1.0 else x.
Definition boosted (active : bool) (x : float) : float :=
  if active then x * 1.8 else x.
Definition dampened (active : bool) (x : float) : float :=
  if active then x * 0.5 else x.

Definition contribution (st : pass_state) (word : str) : float :=
  dampened (dampener_active st)
    (boosted (booster_active st)
       (negated (negation_active st) (base_score word))).

(** The step of the pass as the specification words it: a modifier raises
    its flag and adds nothing; a scored token adds its contribution and
    leaves the three flags cleared. *)
Definition modifier_step (st : pass_state) (token : str) : pass_state :=
  match kind_of (stripped token) with
  | Negator => PassState (score st) true (booster_active st) (dampener_active st)
  | Booster => PassState (score st) (negation_active st) true (dampener_active st)
  | Dampener => PassState (score st) (negation_active st) (booster_active st) true
  | Scoreable =>
      PassState (score st + contribution st (stripped token)) false false false
  end.

(** The length factor as the specification words it, by the three ranges of
    the token count. *)
Definition length_divisor (n : nat) : option float :=
  match n with
  | O => None
  | 1%nat | 2%nat | 3%nat => Some (py_max 1.0 (float_of_int (Z.of_nat n) * 0.6))
  | _ => Some (PrimFloat.sqrt (float_of_int (Z.of_nat n)))
  end.

Definition divided (total : float) (d : option float) : float :=
  match d with
  | None => total
  | Some d => total / d
  end.

(** The five word sets are disjoint in pairs. *)
Definition lexicon_pairwise_disjoint : Prop :=
  POS_WORDS ## NEG_WORDS /\ POS_WORDS ## NEGATORS /\ POS_WORDS ## BOOSTERS /\
  POS_WORDS ## DAMPENERS /\ NEG_WORDS ## NEGATORS /\ NEG_WORDS ## BOOSTERS /\
  NEG_WORDS ## DAMPENERS /\ NEGATORS ## BOOSTERS /\ NEGATORS ## DAMPENERS /\
  BOOSTERS ## DAMPENERS.

(** The dampeners that are one word long. *)
Definition SINGLE_WORD_DAMPENERS : gset str := words
  ["somewhat"; "slightly"; "barely"; "hardly"; "maybe"; "perhaps"]%string.

(** A text is tidy when each whitespace character in it is a single space
    that follows a non-whitespace character; [in_run] tells that whitespace
    precedes the text. *)
Fixpoint tidy (in_run : bool) (s : str) : bool :=
  match s with
  | [] => true
  | c :: r =>
      if isspace c then negb in_run && (c =? SPACE)%N && tidy true r
      else tidy false r
  end.

(** Lowercasing of a Basic Latin character. *)
Definition latin_lower (c : char) : char :=
  if is_upper_latin c then (c + 0x20)%N else c.

(** What is used of the Unicode tables: Basic Latin is lowered letter by
    letter; a lowercase mapping yields characters that are their own
    lowercase, none of them the capital sigma; so are the two small
    sigmas. *)
Class CaseLaws (U : CaseTables) : Prop := {
  lower_basic_latin :
    forall c, (c < 0x80)%N -> to_lower_full c = [latin_lower c];
  lower_stable :
    forall c d, In d (to_lower_full c) ->
                to_lower_full d = [d] /\ d <> CAPITAL_SIGMA;
  lower_sigma :
    to_lower_full FINAL_SIGMA = [FINAL_SIGMA] /\
    to_lower_full SMALL_SIGMA = [SMALL_SIGMA]
}.

(** A character that [lower] leaves alone wherever it stands. *)
Definition stable `{CaseTables} (c : char) : Prop :=
  to_lower_full c = [c] /\ c <> CAPITAL_SIGMA.

(** The number of glyphs of a set that occur in the text. *)
Definition glyphs_present (glyphs : gset str) (text : str) : nat :=
  size (filter (fun g => contains g text = true) glyphs).


(** [delta] added [k] times over. *)
Definition add_repeatedly (k : nat) (delta x : float) : float :=
  Nat.iter k (fun y => y + delta) x.




Definition SMILE : str := [0x1F60A]%N.
Definition ANGRY : str := [0x1F621]%N.



(** ** Vocabulary of the further properties *)

(** [' '.join(tokens)] *)
Fixpoint join_space (tokens : list str) : str :=
  match tokens with
  | [] => []
  | [t] => t
  | t :: rest => t ++ SPACE :: join_space rest
  end.

(** The last character, if any, is no whitespace. *)
Fixpoint ends_well (s : str) : bool :=
  match s with
  | [] => true
  | [c] => negb (isspace c)
  | _ :: r => ends_well r
  end.

(** The first character, if any, is no whitespace. *)
Definition starts_well (s : str) : bool :=
  match s with
  | [] => true
  | c :: _ => negb (isspace c)
  end.

Definition is_basic_latin (c : char) : bool := (c <? 0x80)%N.

(** The labels in the order in which a rising score meets them. *)
Definition label_rank (l : label) : nat :=
  match l with
  | negative => 0
  | neutral => 1
  | positive => 2
  end.


(** The value that the last pair of the given label carries. *)
Fixpoint last_value (label : str) (pairs : list (str * float)) : option float :=
  match pairs with
  | [] => None
  | (k, v) :: rest =>
      match last_value label rest with
      | Some w => Some w
      | None => if decide (k = label) then Some v else None
      end
  end.

(** No character of the text is a tab. *)
Definition no_tab (s : str) : bool := forallb (fun c => negb (c =? TAB)%N) s.

(** A field of a data row that [load_tsv] reads back unchanged: not empty,
    without tab, and without whitespace at the given end. *)
Definition clean_text (t : str) : bool :=
  nonempty t && starts_well t && no_tab t.
Definition clean_label (l : str) : bool :=
  nonempty l && ends_well l.


Definition kind_eqb (a b : token_kind) : bool :=
  match a, b with
  | Negator, Negator | Booster, Booster | Dampener, Dampener
  | Scoreable, Scoreable => true
  | _, _ => false
  end.

(** A token of the given kind occurs in the list. *)
Definition has_kind (k : token_kind) (tokens : list str) : bool :=
  existsb (fun t => kind_eqb (kind_of (stripped t)) k) tokens.

(** A dictionary as [train] saves it, the stored objects being numbered. *)
Definition saved_model : gmap str nat :=
  <[u "version" := 0%nat]> (<[u "vectorizer" := 1%nat]>
    (<[u "model" := 2%nat]> (<[u "labels" := 3%nat]> ∅))).

(** * Part III: the properties *)

(** ** Runs of the program *)

Example normalize_hello_world :
  normalize (u "  Hello   World  ") = u "hello world".
Proof. vm_compute. reflexivity. Qed.

Example tokenize_spaces :
  tokenize (u "  a   b  ") = [u "a"; u "b"] /\ tokenize (u "") = [].
Proof. vm_compute. split; reflexivity. Qed.

(** The end-to-end scenarios of the specification. *)
Example end_to_end_labels :
  analyze_fallback (u "I love this!") = positive /\
  analyze_fallback (u "I hate this") = negative /\
  analyze_fallback (u "It exists") = neutral /\
  analyze_fallback (u "not good") = negative /\
  analyze_fallback (u "not bad") = positive /\
  analyze_fallback (u "") = neutral /\
  analyze_fallback_score (u "") = 0.0.
Proof. vm_compute. repeat split. Qed.

(** Boosting and emphasis raise the magnitude of a score, dampening lowers
    it. *)
Example modifier_magnitudes :
  PrimFloat.ltb (analyze_fallback_score (u "good"))
                (analyze_fallback_score (u "very good")) = true /\
  PrimFloat.ltb (analyze_fallback_score (u "extremely bad"))
                (analyze_fallback_score (u "bad")) = true /\
  PrimFloat.ltb (analyze_fallback_score (u "somewhat great"))
                (analyze_fallback_score (u "great")) = true /\
  PrimFloat.ltb (analyze_fallback_score (u "good"))
                (analyze_fallback_score (u "good!")) = true.
Proof. vm_compute. repeat split. Qed.

(** ** The clamp *)

Lemma ltb_leb (x y : float) : PrimFloat.ltb x y = true -> PrimFloat.leb x y = true.
Proof.
  rewrite ltb_spec, leb_spec. unfold SFltb, SFleb.
  destruct (SFcompare _ _) as [[]|]; congruence.
Qed.

Lemma clamp_unit_cases (x : float) :
  (clamp_unit x = x /\ PrimFloat.ltb (-1.0) x = true /\ PrimFloat.ltb x 1.0 = true)
  \/ clamp_unit x = -1.0 \/ clamp_unit x = 1.0.
Proof.
  unfold clamp_unit, py_min.
  destruct (PrimFloat.ltb x 1.0) eqn:Hhi.
  - unfold py_max. destruct (PrimFloat.ltb (-1.0) x) eqn:Hlo; auto.
  - right; right. reflexivity.
Qed.

Lemma clamp_unit_range (x : float) :
  PrimFloat.leb (-1.0) (clamp_unit x) = true /\
  PrimFloat.leb (clamp_unit x) 1.0 = true.
Proof.
  destruct (clamp_unit_cases x) as [(-> & Hlo & Hhi) | [-> | ->]].
  - split; apply ltb_leb; assumption.
  - split; reflexivity.
  - split; reflexivity.
Qed.

(** C1. For every text the fallback score lies in the closed interval
    [-1, 1]: the value returned is the clamped one. *)
Theorem analyze_fallback_score_in_unit `{CaseTables} (text : str) :
  PrimFloat.leb (-1.0) (analyze_fallback_score text) = true /\
  PrimFloat.leb (analyze_fallback_score text) 1.0 = true.
Proof. unfold analyze_fallback_score; cbv zeta. apply clamp_unit_range. Qed.

(** ** The label mapper *)

(** C7. [label_from_score] answers positive exactly when the score reaches
    the positive threshold, otherwise negative exactly when the score is at
    most the negative threshold, otherwise neutral; both boundaries are
    inclusive, as the four boundary values under the default thresholds
    show. *)
Theorem label_from_score_thresholds (s pos_threshold neg_threshold : float) :
  (label_from_score s pos_threshold neg_threshold = positive <->
     PrimFloat.leb pos_threshold s = true) /\
  (label_from_score s pos_threshold neg_threshold = negative <->
     PrimFloat.leb pos_threshold s = false /\
     PrimFloat.leb s neg_threshold = true) /\
  (label_from_score s pos_threshold neg_threshold = neutral <->
     PrimFloat.leb pos_threshold s = false /\
     PrimFloat.leb s neg_threshold = false) /\
  label_from_score 0.10 default_pos_threshold default_neg_threshold = positive /\
  label_from_score 0.099 default_pos_threshold default_neg_threshold = neutral /\
  label_from_score (-0.10) default_pos_threshold default_neg_threshold = negative /\
  label_from_score (-0.099) default_pos_threshold default_neg_threshold = neutral.
Proof.
  unfold label_from_score.
  destruct (PrimFloat.leb pos_threshold s) eqn:Hpos;
    destruct (PrimFloat.leb s neg_threshold) eqn:Hneg;
    repeat split; try reflexivity; try discriminate;
    intros; repeat match goal with H : _ /\ _ |- _ => destruct H end;
    discriminate.
Qed.

(** ** The lexicon sets *)

Lemma never_in_both : u "never" ∈ NEG_WORDS /\ u "never" ∈ NEGATORS.
Proof. split; compute_done. Qed.

(** C5, as stated, fails: the word never is both a negative word and a
    negator. *)
Lemma lexicon_not_pairwise_disjoint : ~ lexicon_pairwise_disjoint.
Proof.
  intros (_ & _ & _ & _ & Hdisj & _).
  destruct never_in_both as [Hneg Hnegator].
  exact (Hdisj _ Hneg Hnegator).
Qed.

(** C5, amended. The five word sets are disjoint in pairs, but for the
    negative words and the negators, which share exactly the word never; the
    scoring pass reads that word as a negator, whatever its state. *)
Theorem lexicon_disjoint_except_never :
  POS_WORDS ## NEG_WORDS /\ POS_WORDS ## NEGATORS /\ POS_WORDS ## BOOSTERS /\
  POS_WORDS ## DAMPENERS /\ NEG_WORDS ∩ NEGATORS = {[ u "never" ]} /\
  NEG_WORDS ## BOOSTERS /\ NEG_WORDS ## DAMPENERS /\ NEGATORS ## BOOSTERS /\
  NEGATORS ## DAMPENERS /\ BOOSTERS ## DAMPENERS /\
  forall st : pass_state,
    token_step st (u "never") =
    PassState (score st) true (booster_active st) (dampener_active st).
Proof.
  repeat apply conj; try compute_done.
  intros st. unfold token_step.
  replace (mem (stripped (u "never")) NEGATORS) with true
    by (vm_compute; reflexivity).
  reflexivity.
Qed.

(** ** The scoring pass *)

Lemma token_step_unfold (st : pass_state) (token : str) :
  token_step st token = modifier_step st token.
Proof.
  unfold token_step, modifier_step, kind_of, contribution.
  unfold negated, boosted, dampened.
  destruct (mem (stripped token) NEGATORS); [reflexivity|].
  destruct (mem (stripped token) BOOSTERS); [reflexivity|].
  destruct (mem (stripped token) DAMPENERS); [reflexivity|].
  destruct st as [s [] [] []]; reflexivity.
Qed.

(** C2. Each step of the pass, and so the whole pass, is the step of the
    specification: a negator, booster or dampener (looked up in that order on
    the stripped form) raises its flag and leaves the score alone; any other
    token adds its base contribution with the active flags applied in the
    order negation (times -1), booster (times 1.8), dampener (times 0.5), and
    leaves the three flags cleared, whatever the base contribution was. *)
Theorem token_pass_modifier_steps (tokens : list str) (st : pass_state)
    (token : str) :
  token_step st token = modifier_step st token /\
  fold_left token_step tokens st = fold_left modifier_step tokens st /\
  (kind_of (stripped token) = Scoreable ->
   token_step st token
   = PassState (score st + contribution st (stripped token)) false false false) /\
  (kind_of (stripped token) <> Scoreable ->
   score (token_step st token) = score st).
Proof.
  refine (conj (token_step_unfold st token) (conj _ (conj _ _))).
  - revert st. induction tokens as [|t ts IH]; intros st; simpl.
    + reflexivity.
    + rewrite token_step_unfold. apply IH.
  - intros Hkind. rewrite token_step_unfold. unfold modifier_step.
    rewrite Hkind. reflexivity.
  - intros Hkind. rewrite token_step_unfold. unfold modifier_step.
    destruct (kind_of (stripped token)); try reflexivity. contradiction.
Qed.

Lemma token_pass_modifier_steps_witness :
  token_step (PassState 0.7 true true true) (u "okay")
  = PassState (0.7 + 0.0 * -1.0 * 1.8 * 0.5) false false false /\
  score (token_step (PassState 0.7 false false false) (u "very")) = 0.7.
Proof.
  destruct (token_pass_modifier_steps [] (PassState 0.7 true true true) (u "okay"))
    as (_ & _ & Hscored & _).
  destruct (token_pass_modifier_steps [] (PassState 0.7 false false false) (u "very"))
    as (_ & _ & _ & Hmodifier).
  split.
  - apply Hscored. vm_compute. reflexivity.
  - apply Hmodifier. vm_compute. discriminate.
Defined.

(** A booster in front of an unknown word is spent on it: the word after it
    is scored plainly; flags that are active together apply to one token. *)
Example booster_wasted_on_unknown_word :
  token_pass [u "very"; u "okay"; u "good"] = PassState 0.7 false false false /\
  token_pass [u "very"; u "good"] = PassState (0.7 * 1.8) false false false /\
  token_pass [u "not"; u "very"; u "somewhat"; u "bad!"]
  = PassState (-0.7 * -1.0 * 1.8 * 0.5) false false false /\
  token_pass [u "not"; u "okay"] = PassState 0.0 false false false.
Proof. vm_compute. repeat split. Qed.

(** ** Length normalization *)

Lemma length_normalize_divisor (n : nat) (total : float) :
  length_normalize n total = divided total (length_divisor n).
Proof.
  unfold length_normalize, length_divisor, divided, pow_half.
  destruct n as [|[|[|[|n]]]]; reflexivity.
Qed.



(** ** Stripping *)

Lemma drop_while_suffix (p : char -> bool) (s : str) :
  exists t, s = t ++ drop_while p s.
Proof.
  induction s as [|c r [t Ht]]; simpl.
  - exists []. reflexivity.
  - destruct (p c).
    + exists (c :: t). simpl. f_equal. exact Ht.
    + exists []. reflexivity.
Qed.

Lemma drop_while_head (p : char -> bool) (s : str) (c : char) (r : str) :
  drop_while p s = c :: r -> p c = false.
Proof.
  induction s as [|d s IH]; simpl; [discriminate|].
  destruct (p d) eqn:Hd; [exact IH|].
  intros [= <- _]. exact Hd.
Qed.

Lemma drop_while_fixed (p : char -> bool) (s : str) :
  match s with [] => True | c :: _ => p c = false end -> drop_while p s = s.
Proof. destruct s as [|c r]; simpl; [reflexivity|]. intros ->. reflexivity. Qed.

Lemma drop_while_idem (p : char -> bool) (s : str) :
  drop_while p (drop_while p s) = drop_while p s.
Proof.
  apply drop_while_fixed.
  destruct (drop_while p s) as [|c r] eqn:Hdrop; [exact I|].
  exact (drop_while_head _ _ _ _ Hdrop).
Qed.

Lemma rstrip_by_prefix (p : char -> bool) (s : str) :
  exists t, s = rstrip_by p s ++ t.
Proof.
  unfold rstrip_by. destruct (drop_while_suffix p (rev s)) as [t Ht].
  exists (rev t). rewrite <- rev_app_distr, <- Ht, rev_involutive. reflexivity.
Qed.

Lemma rstrip_by_idem (p : char -> bool) (s : str) :
  rstrip_by p (rstrip_by p s) = rstrip_by p s.
Proof. unfold rstrip_by. rewrite rev_involutive, drop_while_idem. reflexivity. Qed.

Lemma strip_by_idem (p : char -> bool) (s : str) :
  strip_by p (strip_by p s) = strip_by p s.
Proof.
  unfold strip_by, lstrip_by.
  assert (Hleft : drop_while p (rstrip_by p (drop_while p s))
                  = rstrip_by p (drop_while p s)).
  { apply drop_while_fixed.
    destruct (rstrip_by_prefix p (drop_while p s)) as [t Ht].
    destruct (rstrip_by p (drop_while p s)) as [|c r]; [exact I|].
    exact (drop_while_head _ _ _ _ Ht). }
  rewrite Hleft. apply rstrip_by_idem.
Qed.

Lemma strip_by_In (p : char -> bool) (s : str) (c : char) :
  In c (strip_by p s) -> In c s.
Proof.
  unfold strip_by, lstrip_by. intros Hin.
  destruct (rstrip_by_prefix p (drop_while p s)) as [t Ht].
  destruct (drop_while_suffix p s) as [h Hh].
  rewrite Hh, Ht. apply in_or_app. right. apply in_or_app. left. exact Hin.
Qed.

(** ** Whitespace *)

Lemma isspace_SPACE : isspace SPACE = true.
Proof. reflexivity. Qed.

Lemma collapse_ws_tidy (s : str) (in_run : bool) :
  tidy in_run (collapse_ws in_run s) = true.
Proof.
  revert in_run. induction s as [|c r IH]; intros in_run; simpl; [reflexivity|].
  destruct (isspace c) eqn:Hc.
  - destruct in_run; [apply IH|].
    simpl. rewrite IH. reflexivity.
  - simpl. rewrite Hc. apply IH.
Qed.

Lemma tidy_collapse_ws (s : str) (in_run : bool) :
  tidy in_run s = true -> collapse_ws in_run s = s.
Proof.
  revert in_run. induction s as [|c r IH]; intros in_run; simpl; [reflexivity|].
  destruct (isspace c) eqn:Hc.
  - destruct in_run; simpl; [discriminate|].
    intros Htidy. apply andb_prop in Htidy as [Hsp Hrest].
    apply N.eqb_eq in Hsp. subst c. f_equal. apply IH. exact Hrest.
  - intros Htidy. f_equal. apply IH. exact Htidy.
Qed.

Lemma tidy_prefix (s t : str) (in_run : bool) :
  tidy in_run (s ++ t) = true -> tidy in_run s = true.
Proof.
  revert in_run. induction s as [|c r IH]; intros in_run; simpl; [reflexivity|].
  destruct (isspace c).
  - destruct in_run; simpl; [discriminate|].
    intros Htidy. apply andb_prop in Htidy as [Hsp Hrest].
    rewrite Hsp. simpl. apply (IH true). exact Hrest.
  - apply IH.
Qed.

Lemma tidy_drop_while (s : str) (in_run : bool) :
  tidy in_run s = true -> tidy false (drop_while isspace s) = true.
Proof.
  destruct s as [|c r]; simpl; [reflexivity|].
  destruct (isspace c) eqn:Hc.
  - destruct in_run; simpl; [discriminate|].
    intros Htidy. apply andb_prop in Htidy as [_ Hrest].
    destruct r as [|d r']; simpl in *; [reflexivity|].
    destruct (isspace d) eqn:Hd; [discriminate|].
    simpl. rewrite Hd. exact Hrest.
  - simpl. rewrite Hc. intros Htidy. exact Htidy.
Qed.

Lemma tidy_strip (s : str) : tidy false s = true -> tidy false (strip s) = true.
Proof.
  intros Htidy. unfold strip, strip_by, lstrip_by.
  apply tidy_drop_while in Htidy.
  destruct (rstrip_by_prefix isspace (drop_while isspace s)) as [t Ht].
  rewrite Ht in Htidy. exact (tidy_prefix _ _ _ Htidy).
Qed.

(** ** Lowercasing *)

#[export] Instance basic_latin_laws : CaseLaws basic_latin.
Proof.
  split.
  - intros c Hc. unfold to_lower_full, basic_latin, latin_lower.
    destruct (is_upper_latin c); [reflexivity|].
    destruct (N.eqb_spec c CAPITAL_SIGMA) as [->|_]; [|reflexivity].
    unfold CAPITAL_SIGMA in Hc. lia.
  - assert (Hplain : forall d, is_upper_latin d = false -> d <> CAPITAL_SIGMA ->
                     to_lower_full d = [d] /\ d <> CAPITAL_SIGMA).
    { intros d Hup Hsigma. split; [|exact Hsigma].
      unfold to_lower_full, basic_latin. rewrite Hup.
      apply N.eqb_neq in Hsigma. rewrite Hsigma. reflexivity. }
    intros c d. unfold to_lower_full at 1, basic_latin at 1.
    destruct (is_upper_latin c) eqn:Hup.
    + intros [<- | []]. unfold is_upper_latin in Hup.
      apply andb_prop in Hup as [Hlo Hhi].
      apply N.leb_le in Hlo, Hhi.
      apply Hplain; [|unfold CAPITAL_SIGMA; lia].
      unfold is_upper_latin. apply andb_false_intro2. apply N.leb_gt. lia.
    + destruct (N.eqb_spec c CAPITAL_SIGMA) as [_|Hsigma].
      * intros [<- | []]. apply Hplain; [reflexivity|discriminate].
      * intros [<- | []]. apply Hplain; assumption.
  - split; reflexivity.
Qed.

Section LowerFacts.
Context `{U : CaseTables} {L : CaseLaws U}.

Lemma stable_SPACE : stable SPACE.
Proof.
  split; [|discriminate].
  rewrite lower_basic_latin by reflexivity. reflexivity.
Qed.

Lemma lower_from_stable (s before_rev : str) (d : char) :
  In d (lower_from before_rev s) -> stable d.
Proof.
  revert before_rev. induction s as [|c r IH]; intros before_rev; simpl.
  - intros [].
  - intros Hin. apply in_app_or in Hin as [Hhere | Hrest]; [|exact (IH _ Hrest)].
    destruct (N.eqb_spec c CAPITAL_SIGMA) as [_|_].
    + destruct Hhere as [<- | []].
      destruct (final_sigma before_rev r); split;
        try apply lower_sigma; discriminate.
    + exact (lower_stable c d Hhere).
Qed.

Lemma lower_from_fixed (s before_rev : str) :
  (forall c, In c s -> stable c) -> lower_from before_rev s = s.
Proof.
  revert before_rev. induction s as [|c r IH]; intros before_rev Hall; simpl.
  - reflexivity.
  - destruct (Hall c (or_introl eq_refl)) as [Hfix Hsigma].
    apply N.eqb_neq in Hsigma. rewrite Hsigma, Hfix. simpl. f_equal.
    apply IH. intros d Hd. apply Hall. right. exact Hd.
Qed.

Lemma lower_from_basic_latin (s before_rev : str) :
  forallb (fun c => c <? 0x80)%N s = true ->
  lower_from before_rev s = List.map latin_lower s.
Proof.
  revert before_rev. induction s as [|c r IH]; intros before_rev; simpl.
  - reflexivity.
  - intros Hall. apply andb_prop in Hall as [Hc Hr].
    apply N.ltb_lt in Hc.
    destruct (N.eqb_spec c CAPITAL_SIGMA) as [->|_].
    + unfold CAPITAL_SIGMA in Hc. lia.
    + rewrite (lower_basic_latin c Hc). simpl. f_equal. apply IH. exact Hr.
Qed.

Lemma collapse_ws_In (s : str) (in_run : bool) (c : char) :
  In c (collapse_ws in_run s) -> c = SPACE \/ In c s.
Proof.
  revert in_run. induction s as [|d r IH]; intros in_run; simpl; [tauto|].
  destruct (isspace d).
  - destruct in_run; simpl.
    + intros Hin. destruct (IH _ Hin); auto.
    + intros [<- | Hin]; [auto|]. destruct (IH _ Hin); auto.
  - simpl. intros [<- | Hin]; [auto|]. destruct (IH _ Hin); auto.
Qed.

Lemma normalize_stable (x : str) (c : char) : In c (normalize x) -> stable c.
Proof.
  unfold normalize, strip, re_sub_ws; cbv zeta. intros Hin.
  apply strip_by_In, collapse_ws_In in Hin as [-> | Hin].
  - exact stable_SPACE.
  - exact (lower_from_stable _ _ _ Hin).
Qed.

Lemma normalize_tidy (x : str) : tidy false (normalize x) = true.
Proof. unfold normalize; cbv zeta. apply tidy_strip, collapse_ws_tidy. Qed.

Lemma normalize_fixed (x : str) : normalize (normalize x) = normalize x.
Proof.
  unfold normalize at 1; cbv zeta. unfold lower.
  rewrite (lower_from_fixed (normalize x) []) by apply normalize_stable.
  unfold re_sub_ws. rewrite (tidy_collapse_ws _ _ (normalize_tidy x)).
  unfold normalize, strip; cbv zeta. apply strip_by_idem.
Qed.

(** C8. [normalize] is a total function that is idempotent, and it is blind
    to the case of Basic Latin letters: HELLO and hello normalize alike. *)
Theorem normalize_idempotent (x : str) :
  normalize (normalize x) = normalize x /\
  normalize (u "HELLO") = normalize (u "hello").
Proof.
  split; [apply normalize_fixed|].
  unfold normalize, lower; cbv zeta.
  rewrite !lower_from_basic_latin by reflexivity. reflexivity.
Qed.

End LowerFacts.

Lemma normalize_idempotent_witness :
  normalize (normalize (u "  Hello   World  ")) = normalize (u "  Hello   World  ").
Proof. exact (proj1 (normalize_idempotent (U := basic_latin) (u "  Hello   World  "))). Defined.

(** ** Tokens *)

Lemma split_from_no_space (s cur_rev w : str) :
  (forall c, In c cur_rev -> isspace c = false) ->
  In w (split_from cur_rev s) ->
  forall c, In c w -> isspace c = false.
Proof.
  revert cur_rev. induction s as [|d r IH]; intros cur_rev Hcur; simpl.
  - destruct cur_rev as [|a cur']; [intros []|].
    intros [<- | []] c Hc. apply Hcur. apply in_rev. exact Hc.
  - destruct (isspace d) eqn:Hd.
    + destruct cur_rev as [|a cur'].
      * apply IH. intros c [].
      * intros [<- | Hin].
        -- intros c Hc. apply Hcur. apply in_rev. exact Hc.
        -- apply (IH []); [intros c []|exact Hin].
    + apply IH. intros c [<- | Hc]; [exact Hd | exact (Hcur c Hc)].
Qed.

Lemma tokenize_no_space `{CaseTables} (text tok : str) :
  In tok (tokenize text) -> forall c, In c tok -> isspace c = false.
Proof.
  unfold tokenize, split; cbv zeta. intros Hin.
  apply List.filter_In in Hin as [Hin _].
  apply (split_from_no_space (normalize text) [] tok); [intros c []|exact Hin].
Qed.

Lemma dampeners_split :
  DAMPENERS = SINGLE_WORD_DAMPENERS ∪ {[ u "kind of"; u "sort of" ]}.
Proof. compute_done. Qed.

Lemma spaced_word_is_no_stripped_token (token word : str) :
  (forall c, In c token -> isspace c = false) ->
  In SPACE word -> stripped token <> word.
Proof.
  intros Htoken Hword Heq. subst word.
  apply strip_by_In, Htoken in Hword. discriminate.
Qed.

Lemma dampener_raised_by_dampener (st : pass_state) (token : str) :
  dampener_active st = false ->
  dampener_active (token_step st token) = true ->
  stripped token ∈ DAMPENERS.
Proof.
  intros Hoff. rewrite token_step_unfold.
  unfold modifier_step, kind_of.
  destruct (mem (stripped token) NEGATORS); simpl; [congruence|].
  destruct (mem (stripped token) BOOSTERS); simpl; [congruence|].
  destruct (mem (stripped token) DAMPENERS) eqn:Hmem; simpl; [|discriminate].
  intros _. apply bool_decide_eq_true in Hmem. exact Hmem.
Qed.

(** C10. No token of [tokenize] holds a whitespace character, so the
    stripped form of a token is neither of the two-word entries kind of and
    sort of; a step of the pass that raises the dampener flag has read one of
    the six one-word dampeners. *)
Theorem tokens_never_match_spaced_dampeners `{CaseTables} (text tok : str) :
  In tok (tokenize text) ->
  (forall c, In c tok -> isspace c = false) /\
  stripped tok <> u "kind of" /\
  stripped tok <> u "sort of" /\
  forall st, dampener_active st = false ->
             dampener_active (token_step st tok) = true ->
             stripped tok ∈ SINGLE_WORD_DAMPENERS.
Proof.
  intros Hin. pose proof (tokenize_no_space text tok Hin) as Hspace.
  assert (Hkind : stripped tok <> u "kind of").
  { apply spaced_word_is_no_stripped_token; [exact Hspace|].
    vm_compute. tauto. }
  assert (Hsort : stripped tok <> u "sort of").
  { apply spaced_word_is_no_stripped_token; [exact Hspace|].
    vm_compute. tauto. }
  repeat apply conj; try assumption.
  intros st Hoff Hon.
  pose proof (dampener_raised_by_dampener st tok Hoff Hon) as Hdamp.
  rewrite dampeners_split in Hdamp.
  apply elem_of_union in Hdamp as [Hsingle | Htwo]; [exact Hsingle|].
  apply elem_of_union in Htwo as [Hk | Hs].
  - apply elem_of_singleton in Hk. contradiction.
  - apply elem_of_singleton in Hs. contradiction.
Qed.

Lemma tokens_never_match_spaced_dampeners_witness :
  stripped (u "somewhat,") <> u "kind of" /\
  dampener_active (token_step initial_state (u "somewhat,")) = true /\
  stripped (u "somewhat,") ∈ SINGLE_WORD_DAMPENERS.
Proof.
  assert (Hin : In (u "somewhat,") (tokenize (u "Somewhat, great"))).
  { vm_compute. left. reflexivity. }
  destruct (tokens_never_match_spaced_dampeners (u "Somewhat, great")
              (u "somewhat,") Hin) as (_ & Hkind & _ & Hflag).
  assert (Hon : dampener_active (token_step initial_state (u "somewhat,")) = true)
    by (vm_compute; reflexivity).
  exact (conj Hkind (conj Hon (Hflag initial_state eq_refl Hon))).
Defined.

(** ** Punctuation and emoji terms *)

Lemma foldr_add_present (delta : float) (text : str) (x : float) (l : list str) :
  foldr (fun emoji s => if contains emoji text then s + delta else s) x l
  = add_repeatedly
      (List.length (filter (fun g => contains g text = true) l)) delta x.
Proof.
  induction l as [|g l IH]; simpl; [reflexivity|].
  rewrite filter_cons. destruct (contains g text) eqn:Hg.
  - rewrite decide_True by reflexivity. simpl. rewrite IH. reflexivity.
  - rewrite decide_False by discriminate. exact IH.
Qed.

Lemma glyphs_present_elements (glyphs : gset str) (text : str) :
  glyphs_present glyphs text
  = List.length (filter (fun g => contains g text = true) (elements glyphs)).
Proof.
  unfold glyphs_present, filter at 1, set_filter.
  apply size_list_to_set, NoDup_filter, NoDup_elements.
Qed.

Lemma add_emojis_present (glyphs : gset str) (delta : float) (text : str)
    (x : float) :
  add_emojis glyphs delta text x
  = add_repeatedly (glyphs_present glyphs text) delta x.
Proof.
  unfold add_emojis, set_fold. simpl.
  rewrite foldr_add_present, glyphs_present_elements. reflexivity.
Qed.

(** The emoji loop gives the same total in whatever order it visits the
    glyphs of the set. *)
Lemma add_emojis_any_order (glyphs : gset str) (delta : float) (text : str)
    (x : float) (visited : list str) :
  visited ≡ₚ elements glyphs ->
  foldr (fun emoji s => if contains emoji text then s + delta else s) x visited
  = add_emojis glyphs delta text x.
Proof.
  intros Hperm. rewrite add_emojis_present, glyphs_present_elements.
  rewrite foldr_add_present. f_equal.
  apply Permutation_length. rewrite Hperm. reflexivity.
Qed.

Lemma raw_total_terms `{CaseTables} (text : str) :
  raw_total text
  = add_repeatedly (glyphs_present EMOJI_NEG text) (-0.3)
      (add_repeatedly (glyphs_present EMOJI_POS text) 0.3
         (add_exclamations (normalize text)
            (score (token_pass (tokenize (normalize text)))))).
Proof. unfold raw_total; cbv zeta. rewrite !add_emojis_present. reflexivity. Qed.

Lemma score_divides_total `{CaseTables} (text : str) :
  analyze_fallback_score text
  = clamp_unit (divided (raw_total text)
                  (length_divisor (List.length (tokenize (normalize text))))).
Proof.
  unfold analyze_fallback_score; cbv zeta.
  rewrite length_normalize_divisor. reflexivity.
Qed.


(** A glyph counts once however often it occurs, and each glyph of a set
    counts for itself. *)
Example emoji_counted_once_per_glyph :
  glyphs_present EMOJI_POS ([0x1F60A; 0x1F60A; 0x20; 0x1F60A]%N) = 1%nat /\
  glyphs_present EMOJI_POS ([0x1F60A; 0x1F44D; 0x2764; 0xFE0F]%N) = 3%nat /\
  glyphs_present EMOJI_POS ([0x2764]%N) = 0%nat /\
  raw_total ([0x1F60A; 0x1F60A; 0x1F60A]%N) = 0.3 /\
  raw_total (u "wow!!!!!!!!!!!!") = 0.1 * 12.
Proof. vm_compute. repeat split. Qed.

(** ** Emoji on otherwise neutral text *)


(** An exclamation mark offsets a negative glyph, and glyphs of the two sets
    offset each other. *)
Example emoji_offset :
  analyze_fallback (u "okay!!! " ++ ANGRY) = neutral /\
  analyze_fallback (u "okay " ++ SMILE ++ ANGRY) = neutral.
Proof. vm_compute. split; reflexivity. Qed.









(** ** The strategy selector *)

Section StrategyFacts.
Context `{CaseTables}.
Context {model : Type}.
Variable path_exists : str -> bool.
Variable load_model : str -> result model.
Variable predict_proba : model -> str -> result (gmap str float).



(** Once a load has failed, every later call falls back as well, whatever
    the path and whatever the world has become. *)
Lemma strategy_stays_on_fallback (text model_path : str) :
  analyze_strategy path_exists load_model predict_proba text model_path
    (CacheState None true)
  = (Return (analyze_fallback text), CacheState None true).
Proof. reflexivity. Qed.




End StrategyFacts.


(** * Part IV: further properties of the code *)

(** ** Order of the scores *)

Lemma SFleb_trans (x y z : spec_float) :
  SFleb x y = true -> SFleb y z = true -> SFleb x z = true.
Proof.
  unfold SFleb, SFcompare.
  destruct x as [sx|sx| |sx mx ex], y as [sy|sy| |sy my ey], z as [sz|sz| |sz mz ez];
    try discriminate; try reflexivity;
    repeat match goal with s : bool |- _ => destruct s end;
    try discriminate; try reflexivity;
    change (Pos.compare_cont Eq) with Pos.compare;
    destruct (Z.compare_spec ex ey); destruct (Z.compare_spec ey ez);
    destruct (Z.compare_spec ex ez);
    try discriminate; try reflexivity; try lia;
    destruct (Pos.compare_spec mx my); destruct (Pos.compare_spec my mz);
    destruct (Pos.compare_spec mx mz);
    simpl; try discriminate; try reflexivity; try lia.
Qed.

Lemma leb_trans (x y z : float) :
  PrimFloat.leb x y = true -> PrimFloat.leb y z = true -> PrimFloat.leb x z = true.
Proof. rewrite !leb_spec. apply SFleb_trans. Qed.

(** Away from NaN the order is total. *)
Lemma SFleb_total (x y : spec_float) :
  SFleb x x = true -> SFleb y y = true -> SFltb x y = false -> SFleb y x = true.
Proof.
  unfold SFleb, SFltb, SFcompare.
  destruct x as [sx|sx| |sx mx ex], y as [sy|sy| |sy my ey];
    try discriminate; try reflexivity;
    repeat match goal with s : bool |- _ => destruct s end;
    try discriminate; try reflexivity; intros _ _;
    change (Pos.compare_cont Eq) with Pos.compare;
    destruct (Z.compare_spec ex ey); destruct (Z.compare_spec ey ex);
    try discriminate; try reflexivity; try lia;
    destruct (Pos.compare_spec mx my); destruct (Pos.compare_spec my mx);
    simpl; try discriminate; try reflexivity; try lia.
Qed.

Lemma SFleb_refl_of_leb (x y : spec_float) :
  SFleb x y = true -> SFleb x x = true /\ SFleb y y = true.
Proof.
  unfold SFleb, SFcompare.
  destruct x as [sx|sx| |sx mx ex], y as [sy|sy| |sy my ey];
    try discriminate; intros _;
    repeat match goal with s : bool |- _ => destruct s end;
    change (Pos.compare_cont Eq) with Pos.compare;
    rewrite ?Z.compare_refl, ?Pos.compare_refl; split; reflexivity.
Qed.

Lemma SFltb_not_leb (x y : spec_float) :
  SFltb x y = true -> SFleb y x = false.
Proof.
  unfold SFleb, SFltb, SFcompare.
  destruct x as [sx|sx| |sx mx ex], y as [sy|sy| |sy my ey];
    try discriminate; try reflexivity;
    repeat match goal with s : bool |- _ => destruct s end;
    try discriminate; try reflexivity;
    change (Pos.compare_cont Eq) with Pos.compare;
    destruct (Z.compare_spec ex ey); destruct (Z.compare_spec ey ex);
    try discriminate; try reflexivity; try lia;
    destruct (Pos.compare_spec mx my); destruct (Pos.compare_spec my mx);
    simpl; try discriminate; try reflexivity; try lia.
Qed.

Lemma leb_total (x y : float) :
  PrimFloat.leb x x = true -> PrimFloat.leb y y = true ->
  PrimFloat.ltb x y = false -> PrimFloat.leb y x = true.
Proof. rewrite !leb_spec, ltb_spec. apply SFleb_total. Qed.

Lemma leb_defined (x y : float) :
  PrimFloat.leb x y = true ->
  PrimFloat.leb x x = true /\ PrimFloat.leb y y = true.
Proof. rewrite !leb_spec. apply SFleb_refl_of_leb. Qed.

Lemma ltb_not_leb (x y : float) :
  PrimFloat.ltb x y = true -> PrimFloat.leb y x = false.
Proof. rewrite leb_spec, ltb_spec. apply SFltb_not_leb. Qed.

Lemma SFcompare_Eq_finite_l (s : bool) (m : BinNums.positive) (e : Z) (y : spec_float) :
  SFcompare (S754_finite s m e) y = Some Eq -> y = S754_finite s m e.
Proof.
  unfold SFcompare. destruct y as [sy|sy| |sy my ey]; destruct s; try destruct sy;
    try discriminate;
    change (Pos.compare_cont Eq) with Pos.compare;
    destruct (Z.compare_spec e ey); try discriminate;
    destruct (Pos.compare_spec m my); try discriminate; intros _; subst; reflexivity.
Qed.

Lemma SFcompare_Eq_finite_r (s : bool) (m : BinNums.positive) (e : Z) (y : spec_float) :
  SFcompare y (S754_finite s m e) = Some Eq -> y = S754_finite s m e.
Proof.
  unfold SFcompare. destruct y as [sy|sy| |sy my ey]; destruct s; try destruct sy;
    try discriminate;
    change (Pos.compare_cont Eq) with Pos.compare;
    destruct (Z.compare_spec ey e); try discriminate;
    destruct (Pos.compare_spec my m); try discriminate; intros _; subst; reflexivity.
Qed.

Lemma leb_not_ltb_eq_l (a x : float) (s : bool) (m : BinNums.positive) (e : Z) :
  Prim2SF a = S754_finite s m e ->
  PrimFloat.leb a x = true -> PrimFloat.ltb a x = false -> x = a.
Proof.
  intros Ha. rewrite leb_spec, ltb_spec, Ha. unfold SFleb, SFltb.
  destruct (SFcompare (S754_finite s m e) (Prim2SF x)) as [[]|] eqn:Hcmp;
    try discriminate.
  intros _ _. apply Prim2SF_inj. rewrite Ha.
  exact (SFcompare_Eq_finite_l _ _ _ _ Hcmp).
Qed.

Lemma leb_not_ltb_eq_r (a x : float) (s : bool) (m : BinNums.positive) (e : Z) :
  Prim2SF a = S754_finite s m e ->
  PrimFloat.leb x a = true -> PrimFloat.ltb x a = false -> x = a.
Proof.
  intros Ha. rewrite leb_spec, ltb_spec, Ha. unfold SFleb, SFltb.
  destruct (SFcompare (Prim2SF x) (S754_finite s m e)) as [[]|] eqn:Hcmp;
    try discriminate.
  intros _ _. apply Prim2SF_inj. rewrite Ha.
  exact (SFcompare_Eq_finite_r _ _ _ _ Hcmp).
Qed.

(** The three ways of [clamp_unit], with what each tells of the argument. *)
Lemma clamp_unit_branches (x : float) :
  (PrimFloat.ltb (-1.0) x = true /\ PrimFloat.ltb x 1.0 = true /\ clamp_unit x = x)
  \/ (PrimFloat.ltb (-1.0) x = false /\ PrimFloat.ltb x 1.0 = true
      /\ clamp_unit x = -1.0)
  \/ (PrimFloat.ltb x 1.0 = false /\ clamp_unit x = 1.0).
Proof.
  unfold clamp_unit, py_min.
  destruct (PrimFloat.ltb x 1.0) eqn:Hhi.
  - unfold py_max. destruct (PrimFloat.ltb (-1.0) x) eqn:Hlo; auto.
  - right; right. split; reflexivity.
Qed.

(** X1. [clamp_unit] leaves every number of [-1, 1] as it is, the two ends
    included, and clamping a second time changes nothing. *)
Theorem clamp_unit_fixes_unit_interval (x : float) :
  (PrimFloat.leb (-1.0) x = true -> PrimFloat.leb x 1.0 = true ->
   clamp_unit x = x) /\
  clamp_unit (clamp_unit x) = clamp_unit x.
Proof.
  assert (Hfix : forall y, PrimFloat.leb (-1.0) y = true ->
                           PrimFloat.leb y 1.0 = true -> clamp_unit y = y).
  { intros y Hlo Hhi.
    destruct (clamp_unit_branches y) as [(_ & _ & ->) | [(Hgt & _ & ->) | (Hlt & ->)]].
    - reflexivity.
    - symmetry. eapply leb_not_ltb_eq_l; [|exact Hlo|exact Hgt].
      vm_compute. reflexivity.
    - symmetry. eapply leb_not_ltb_eq_r; [|exact Hhi|exact Hlt].
      vm_compute. reflexivity. }
  split; [apply Hfix|].
  apply Hfix; apply clamp_unit_range.
Qed.

Lemma clamp_unit_fixes_unit_interval_witness :
  clamp_unit (-1.0) = -1.0 /\ clamp_unit 0.25 = 0.25.
Proof.
  split.
  - apply (proj1 (clamp_unit_fixes_unit_interval (-1.0))); reflexivity.
  - apply (proj1 (clamp_unit_fixes_unit_interval 0.25)); reflexivity.
Defined.

(** X2. [clamp_unit] keeps the order of the numbers it is given. *)
Theorem clamp_unit_monotone (x y : float) :
  PrimFloat.leb x y = true ->
  PrimFloat.leb (clamp_unit x) (clamp_unit y) = true.
Proof.
  intros Hxy. destruct (leb_defined x y Hxy) as [Hx Hy].
  assert (Hone : PrimFloat.leb 1.0 1.0 = true) by reflexivity.
  destruct (clamp_unit_branches x) as [(Hxlo & Hxhi & ->) | [(Hxlo & Hxhi & ->) | (Hxhi & ->)]].
  - destruct (clamp_unit_branches y) as [(_ & _ & ->) | [(Hylo & _ & ->) | (_ & ->)]].
    + exact Hxy.
    + assert (Hy1 : PrimFloat.leb y (-1.0) = true)
        by (apply leb_total; [reflexivity | exact Hy | exact Hylo]).
      pose proof (leb_trans _ _ _ Hxy Hy1) as Hbad.
      rewrite (ltb_not_leb _ _ Hxlo) in Hbad. discriminate.
    + apply ltb_leb. exact Hxhi.
  - apply clamp_unit_range.
  - assert (H1x : PrimFloat.leb 1.0 x = true)
      by (apply leb_total; [exact Hx | reflexivity | exact Hxhi]).
    pose proof (leb_trans _ _ _ H1x Hxy) as H1y.
    destruct (clamp_unit_branches y) as [(_ & Hyhi & ->) | [(_ & Hyhi & ->) | (_ & ->)]].
    + rewrite (ltb_not_leb _ _ Hyhi) in H1y. discriminate.
    + rewrite (ltb_not_leb _ _ Hyhi) in H1y. discriminate.
    + reflexivity.
Qed.

Lemma clamp_unit_monotone_witness :
  PrimFloat.leb (clamp_unit (-3.5)) (clamp_unit 0.25) = true.
Proof. apply clamp_unit_monotone. reflexivity. Defined.

(** X3. Whatever the two thresholds, a higher score never gets a lower
    label, in the order negative, neutral, positive. *)
Theorem label_from_score_monotone (s1 s2 pos_threshold neg_threshold : float) :
  PrimFloat.leb s1 s2 = true ->
  (label_rank (label_from_score s1 pos_threshold neg_threshold)
   <= label_rank (label_from_score s2 pos_threshold neg_threshold))%nat.
Proof.
  intros Hle. unfold label_from_score.
  destruct (PrimFloat.leb pos_threshold s1) eqn:Hp1.
  - rewrite (leb_trans _ _ _ Hp1 Hle). simpl. lia.
  - destruct (PrimFloat.leb s1 neg_threshold) eqn:Hn1.
    + simpl. lia.
    + destruct (PrimFloat.leb pos_threshold s2); [simpl; lia|].
      destruct (PrimFloat.leb s2 neg_threshold) eqn:Hn2; [|simpl; lia].
      rewrite (leb_trans _ _ _ Hle Hn2) in Hn1. discriminate.
Qed.

Lemma label_from_score_monotone_witness :
  (label_rank (label_from_score (-0.5) default_pos_threshold default_neg_threshold)
   <= label_rank (label_from_score 0.05 default_pos_threshold default_neg_threshold))%nat.
Proof. apply label_from_score_monotone. reflexivity. Defined.

(** ** The shape of normalized text and of tokens *)

Lemma split_from_nonempty (s cur_rev w : str) :
  In w (split_from cur_rev s) -> w <> [].
Proof.
  assert (Hrev : forall a (l : str), rev (a :: l) <> []).
  { intros a l. simpl. intros Heq. apply app_eq_nil in Heq as [_ Heq]. discriminate. }
  revert cur_rev. induction s as [|c r IH]; intros cur_rev; simpl.
  - destruct cur_rev as [|a cur']; [intros []|].
    intros [<- | []]. apply Hrev.
  - destruct (isspace c); [|apply IH].
    destruct cur_rev as [|a cur']; [apply IH|].
    intros [<- | Hin]; [apply Hrev | exact (IH [] Hin)].
Qed.

Lemma split_from_started (s cur_rev : str) :
  cur_rev <> [] -> split_from cur_rev s <> [].
Proof.
  revert cur_rev. induction s as [|c r IH]; intros cur_rev Hcur; simpl.
  - destruct cur_rev; [contradiction | discriminate].
  - destruct (isspace c).
    + destruct cur_rev; [contradiction | discriminate].
    + apply IH. discriminate.
Qed.

Lemma filter_nonempty_all (l : list str) :
  (forall w, In w l -> w <> []) -> List.filter nonempty l = l.
Proof.
  induction l as [|w l IH]; intros Hall; simpl; [reflexivity|].
  destruct w as [|c w].
  - exfalso. apply (Hall []); [left|]; reflexivity.
  - simpl. f_equal. apply IH. intros v Hv. apply Hall. right. exact Hv.
Qed.

Lemma tokenize_split `{CaseTables} (text : str) :
  tokenize text = split (normalize text).
Proof.
  unfold tokenize; cbv zeta. apply filter_nonempty_all.
  intros w. apply split_from_nonempty.
Qed.

(** X4. The tokens of a text are the whitespace-separated runs of its
    normalized form, the filter of [tokenize] removing nothing: no token is
    empty. *)
Theorem tokenize_has_no_empty_token `{CaseTables} (text : str) :
  tokenize text = split (normalize text) /\
  Forall (fun tok => tok <> []) (tokenize text).
Proof.
  split; [apply tokenize_split|].
  apply List.Forall_forall. intros tok Hin.
  rewrite tokenize_split in Hin. exact (split_from_nonempty _ _ _ Hin).
Qed.

Lemma ends_well_last (a : str) (c : char) :
  ends_well (a ++ [c]) = negb (isspace c).
Proof.
  induction a as [|d a IH]; [reflexivity|].
  simpl. destruct (a ++ [c]) eqn:Happ; [|exact IH].
  apply app_eq_nil in Happ as [_ Happ]. discriminate.
Qed.

Lemma rstrip_ends_well (s : str) : ends_well (rstrip_by isspace s) = true.
Proof.
  unfold rstrip_by.
  destruct (drop_while isspace (rev s)) as [|c r] eqn:Hdrop; [reflexivity|].
  simpl. rewrite ends_well_last.
  rewrite (drop_while_head _ _ _ _ Hdrop). reflexivity.
Qed.

Lemma strip_starts_well (s : str) : starts_well (strip s) = true.
Proof.
  unfold strip, strip_by, lstrip_by.
  destruct (rstrip_by_prefix isspace (drop_while isspace s)) as [t Ht].
  destruct (rstrip_by isspace (drop_while isspace s)) as [|c r]; [reflexivity|].
  simpl. rewrite (drop_while_head _ _ _ _ Ht). reflexivity.
Qed.

Lemma tidy_started (s : str) :
  tidy false s = true -> starts_well s = true -> tidy true s = true.
Proof.
  destruct s as [|c r]; simpl; [reflexivity|].
  destruct (isspace c); [discriminate|]. intros Htidy _. exact Htidy.
Qed.

Lemma ends_well_tail (c : char) (r : str) :
  r <> [] -> ends_well (c :: r) = ends_well r.
Proof. destruct r; [contradiction | reflexivity]. Qed.

Lemma join_space_cons (w : str) (l : list str) :
  l <> [] -> join_space (w :: l) = w ++ SPACE :: join_space l.
Proof. destruct l; [contradiction | reflexivity]. Qed.

Lemma join_split_from (s cur_rev : str) :
  tidy (negb (nonempty cur_rev)) s = true -> ends_well s = true ->
  join_space (split_from cur_rev s) = rev cur_rev ++ s.
Proof.
  revert cur_rev. induction s as [|c r IH]; intros cur_rev Htidy Hends.
  - simpl. destruct cur_rev; simpl; rewrite ?app_nil_r; reflexivity.
  - simpl in Htidy |- *. destruct (isspace c) eqn:Hc.
    + destruct cur_rev as [|a cur']; [discriminate|]. simpl in Htidy.
      apply andb_prop in Htidy as [Hsp Hrest]. apply N.eqb_eq in Hsp. subst c.
      destruct r as [|d r'].
      { vm_compute in Hends. discriminate. }
      rewrite ends_well_tail in Hends by discriminate.
      assert (Hmore : split_from [] (d :: r') <> []).
      { simpl. simpl in Hrest. destruct (isspace d); [discriminate|].
        apply split_from_started. discriminate. }
      rewrite join_space_cons by exact Hmore.
      rewrite (IH [] Hrest Hends). reflexivity.
    + assert (Hends' : ends_well r = true).
      { destruct r as [|d r']; [reflexivity|].
        rewrite ends_well_tail in Hends by discriminate. exact Hends. }
      rewrite (IH (c :: cur_rev) Htidy Hends'). simpl.
      rewrite <- app_assoc. reflexivity.
Qed.

Lemma strip_shape (s : str) :
  tidy false s = true ->
  tidy true (strip s) = true /\ ends_well (strip s) = true.
Proof.
  intros Htidy. split.
  - apply tidy_started; [apply tidy_strip; exact Htidy | apply strip_starts_well].
  - unfold strip, strip_by. apply rstrip_ends_well.
Qed.

(** X5. Joining the tokens of a text with single spaces gives back its
    normalized form: tokenizing loses nothing but the spacing. *)
Theorem join_tokenize_is_normalize `{CaseTables} (text : str) :
  join_space (tokenize text) = normalize text.
Proof.
  rewrite tokenize_split. unfold split.
  destruct (strip_shape (re_sub_ws (lower text)) (collapse_ws_tidy _ false))
    as [Htidy Hends].
  exact (join_split_from (normalize text) [] Htidy Hends).
Qed.

Lemma tidy_space_is_SPACE (s : str) (in_run : bool) (c : char) :
  tidy in_run s = true -> In c s -> isspace c = true -> c = SPACE.
Proof.
  revert in_run. induction s as [|d r IH]; intros in_run; simpl; [tauto|].
  destruct (isspace d) eqn:Hd.
  - intros Htidy. apply andb_prop in Htidy as [Hhead Hrest].
    apply andb_prop in Hhead as [_ Hsp]. apply N.eqb_eq in Hsp.
    intros [<- | Hin] Hc; [exact Hsp | exact (IH _ Hrest Hin Hc)].
  - intros Htidy [<- | Hin] Hc; [congruence | exact (IH _ Htidy Hin Hc)].
Qed.

Lemma tidy_no_double_space (a b : str) (c d : char) (in_run : bool) :
  tidy in_run (a ++ c :: d :: b) = true -> isspace c = true -> isspace d = false.
Proof.
  revert in_run. induction a as [|x a IH]; intros in_run; simpl.
  - intros Htidy Hc. rewrite Hc in Htidy.
    apply andb_prop in Htidy as [_ Hrest].
    destruct (isspace d); [discriminate | reflexivity].
  - destruct (isspace x).
    + intros Htidy. apply andb_prop in Htidy as [_ Hrest]. exact (IH _ Hrest).
    + apply IH.
Qed.

(** X6. A normalized text neither starts nor ends with whitespace, its only
    whitespace characters are spaces, no two of them adjacent; collapsing
    its whitespace or stripping it again changes nothing. *)
Theorem normalize_shape `{CaseTables} (text : str) :
  starts_well (normalize text) = true /\
  ends_well (normalize text) = true /\
  (forall c, In c (normalize text) -> isspace c = true -> c = SPACE) /\
  (forall a b c d, normalize text = a ++ c :: d :: b ->
                   isspace c = true -> isspace d = false) /\
  re_sub_ws (normalize text) = normalize text /\
  strip (normalize text) = normalize text.
Proof.
  assert (Htidy : tidy false (normalize text) = true).
  { unfold normalize; cbv zeta. apply tidy_strip, collapse_ws_tidy. }
  destruct (strip_shape (re_sub_ws (lower text)) (collapse_ws_tidy _ false))
    as [_ Hends].
  refine (conj (strip_starts_well _) (conj Hends (conj _ (conj _ (conj _ _))))).
  - intros c. apply (tidy_space_is_SPACE _ _ _ Htidy).
  - intros a b c d Heq. rewrite Heq in Htidy.
    exact (tidy_no_double_space _ _ _ _ _ Htidy).
  - unfold re_sub_ws. apply tidy_collapse_ws. exact Htidy.
  - unfold normalize, strip; cbv zeta. apply strip_by_idem.
Qed.

Section NormalizedTokens.
Context `{U : CaseTables} {L : CaseLaws U}.

(** X7. Tokenizing a text that was normalized beforehand gives the tokens of
    the text itself, so the scorer, which normalizes and then tokenizes,
    works on the tokens of its input. *)
Theorem tokenize_of_normalized (text : str) :
  tokenize (normalize text) = tokenize text.
Proof. unfold tokenize; cbv zeta. rewrite normalize_fixed. reflexivity. Qed.

End NormalizedTokens.

Lemma tokenize_of_normalized_witness :
  tokenize (normalize (u "  Not   BAD ")) = tokenize (u "  Not   BAD ").
Proof. exact (tokenize_of_normalized (U := basic_latin) (u "  Not   BAD ")). Defined.

(** ** Punctuation around words *)

Lemma drop_while_all (p : char -> bool) (s : str) :
  forallb p s = true -> drop_while p s = [].
Proof.
  induction s as [|c r IH]; simpl; [reflexivity|].
  destruct (p c); [exact IH | discriminate].
Qed.

Lemma drop_while_app (p : char -> bool) (w t : str) :
  drop_while p (w ++ t)
  = match drop_while p w with
    | [] => drop_while p t
    | c :: r => (c :: r) ++ t
    end.
Proof.
  induction w as [|c w IH]; simpl; [reflexivity|].
  destruct (p c); [exact IH | reflexivity].
Qed.

Lemma forallb_rev_true (p : char -> bool) (s : str) :
  forallb p s = true -> forallb p (rev s) = true.
Proof.
  rewrite !forallb_forall. intros Hall c Hc. apply Hall, in_rev. exact Hc.
Qed.

Lemma strip_by_padded (p : char -> bool) (before w after : str) :
  forallb p before = true -> forallb p after = true ->
  strip_by p (before ++ w ++ after) = strip_by p w.
Proof.
  intros Hbefore Hafter. unfold strip_by, lstrip_by.
  rewrite drop_while_app, (drop_while_all p before Hbefore).
  rewrite drop_while_app.
  destruct (drop_while p w) as [|c r] eqn:Hw.
  - rewrite (drop_while_all p after Hafter). reflexivity.
  - unfold rstrip_by. rewrite rev_app_distr, drop_while_app.
    rewrite (drop_while_all p (rev after)) by (apply forallb_rev_true; exact Hafter).
    reflexivity.
Qed.

(** X8. Punctuation of the stripped class put before or after a token does
    not change its stripped form, so the token is looked up and scored by
    the pass exactly as without it. *)
Theorem punctuation_around_token_ignored (before w after : str) (st : pass_state) :
  forallb is_punct before = true -> forallb is_punct after = true ->
  stripped (before ++ w ++ after) = stripped w /\
  token_step st (before ++ w ++ after) = token_step st w.
Proof.
  intros Hbefore Hafter.
  assert (Hstripped : stripped (before ++ w ++ after) = stripped w)
    by (apply strip_by_padded; assumption).
  split; [exact Hstripped|].
  unfold token_step; cbv zeta. rewrite Hstripped. reflexivity.
Qed.

Lemma punctuation_around_token_ignored_witness :
  token_step initial_state (u "'good!!!'") = token_step initial_state (u "good").
Proof.
  apply (proj2 (punctuation_around_token_ignored (u "'") (u "good") (u "!!!'")
                  initial_state eq_refl eq_refl)).
Defined.

(** X9. A token made of punctuation only has the empty stripped form; the
    pass scores it as an unknown word: it adds the flagged zero and clears
    the three flags, so a modifier in front of it does not reach the next
    word. *)
Theorem punctuation_token_consumes_flags (token : str) (st : pass_state) :
  forallb is_punct token = true ->
  stripped token = [] /\
  token_step st token
  = PassState
      (score st + dampened (dampener_active st)
                    (boosted (booster_active st)
                       (negated (negation_active st) 0.0)))
      false false false.
Proof.
  intros Hpunct.
  assert (Hempty : stripped token = []).
  { unfold stripped, strip_by, lstrip_by.
    rewrite (drop_while_all _ _ Hpunct). reflexivity. }
  split; [exact Hempty|].
  rewrite token_step_unfold. unfold modifier_step. rewrite Hempty. reflexivity.
Qed.

Lemma punctuation_token_consumes_flags_witness :
  token_pass [u "not"; u "!"; u "good"] = PassState (0.0 * -1.0 + 0.7) false false false.
Proof.
  unfold token_pass. simpl fold_left.
  destruct (punctuation_token_consumes_flags (u "!")
              (token_step initial_state (u "not")) eq_refl) as [_ ->].
  vm_compute. reflexivity.
Defined.

(** ** Runs of modifiers *)

(** X10. A run of modifier tokens leaves the score alone and raises exactly
    the flags of the kinds that occur in it: neither the order of the
    modifiers nor their repetition matters. *)
Theorem modifier_run (ms : list str) (st : pass_state) :
  Forall (fun t => kind_of (stripped t) <> Scoreable) ms ->
  fold_left token_step ms st
  = PassState (score st)
      (negation_active st || has_kind Negator ms)
      (booster_active st || has_kind Booster ms)
      (dampener_active st || has_kind Dampener ms).
Proof.
  intros Hall. revert st.
  induction Hall as [|t ms Ht _ IH]; intros st; simpl.
  - rewrite !orb_false_r. destruct st; reflexivity.
  - rewrite IH, token_step_unfold. unfold modifier_step, has_kind. simpl.
    destruct (kind_of (stripped t)); simpl;
      rewrite ?orb_true_r, ?orb_false_r, ?orb_true_l; try reflexivity.
    contradiction.
Qed.

Lemma modifier_run_witness :
  fold_left token_step [u "very"; u "not"; u "very"] initial_state
  = PassState 0.0 true true false.
Proof.
  rewrite (modifier_run [u "very"; u "not"; u "very"] initial_state).
  - vm_compute. reflexivity.
  - repeat constructor; vm_compute; discriminate.
Defined.

(** ** Texts of Basic Latin characters *)

Lemma contains_head_In (g : char) (gs text : str) :
  contains (g :: gs) text = true -> In g text.
Proof.
  induction text as [|c r IH]; simpl; [discriminate|].
  intros Hfound. apply orb_prop in Hfound as [Hhere | Hlater].
  - apply andb_prop in Hhere as [Heq _]. apply N.eqb_eq in Heq. left. congruence.
  - right. exact (IH Hlater).
Qed.

Lemma no_glyph_present (glyphs : gset str) (text : str) :
  (forall g, g ∈ glyphs -> contains g text = false) ->
  glyphs_present glyphs text = 0%nat.
Proof.
  intros Hnone. unfold glyphs_present. apply size_empty_iff.
  intros g. rewrite elem_of_filter. split.
  - intros [Hfound Hin]. rewrite (Hnone g Hin) in Hfound. discriminate.
  - intros Hin. apply elem_of_empty in Hin. contradiction.
Qed.

Lemma glyph_needs_its_head (text : str) (g : char) (gs : str) :
  forallb is_basic_latin text = true -> is_basic_latin g = false ->
  contains (g :: gs) text = false.
Proof.
  intros Hlatin Hg. destruct (contains (g :: gs) text) eqn:Hfound; [|reflexivity].
  apply contains_head_In in Hfound.
  rewrite forallb_forall in Hlatin. rewrite (Hlatin g Hfound) in Hg. discriminate.
Qed.

Lemma basic_latin_has_no_glyph (text : str) :
  forallb is_basic_latin text = true ->
  glyphs_present EMOJI_POS text = 0%nat /\ glyphs_present EMOJI_NEG text = 0%nat.
Proof.
  intros Hlatin. split; apply no_glyph_present; intros g Hin;
    unfold EMOJI_POS, EMOJI_NEG in Hin; apply elem_of_list_to_set in Hin;
    repeat (apply elem_of_cons in Hin as [-> | Hin];
            [apply glyph_needs_its_head; [exact Hlatin | reflexivity]|]);
    apply elem_of_nil in Hin; contradiction.
Qed.

Lemma basic_latin_total `{CaseTables} (text : str) :
  forallb is_basic_latin text = true ->
  raw_total text
  = add_exclamations (normalize text)
      (score (token_pass (tokenize (normalize text)))).
Proof.
  intros Hlatin. rewrite raw_total_terms.
  destruct (basic_latin_has_no_glyph text Hlatin) as [-> ->]. reflexivity.
Qed.

Ltac decide_comparisons :=
  repeat match goal with
  | |- context [N.leb ?a ?b] =>
      first [ replace (N.leb a b) with true by (symmetry; apply N.leb_le; lia)
            | replace (N.leb a b) with false by (symmetry; apply N.leb_gt; lia) ]
  | |- context [N.eqb ?a ?b] =>
      first [ replace (N.eqb a b) with false by (symmetry; apply N.eqb_neq; lia)
            | replace (N.eqb a b) with true by (symmetry; apply N.eqb_eq; lia) ]
  end.

Lemma whitespace_is_not_upper (c : char) :
  isspace c = true -> latin_lower c = c.
Proof.
  intros Hspace. unfold latin_lower.
  destruct (is_upper_latin c) eqn:Hupper; [|reflexivity].
  unfold is_upper_latin in Hupper. apply andb_prop in Hupper as [Hlo Hhi].
  apply N.leb_le in Hlo, Hhi.
  assert (Hno : isspace c = false)
    by (unfold isspace; decide_comparisons; reflexivity).
  congruence.
Qed.

Lemma collapse_ws_blank (s : str) (in_run : bool) :
  forallb isspace s = true -> forallb isspace (collapse_ws in_run s) = true.
Proof.
  revert in_run. induction s as [|c r IH]; intros in_run; simpl; [reflexivity|].
  destruct (isspace c); [|discriminate]. intros Hall.
  destruct in_run; simpl; rewrite ?IH; auto.
Qed.

Lemma strip_blank (s : str) : forallb isspace s = true -> strip s = [].
Proof.
  intros Hall. unfold strip, strip_by, lstrip_by.
  rewrite (drop_while_all _ _ Hall). reflexivity.
Qed.

Section BasicLatinTexts.
Context `{U : CaseTables} {L : CaseLaws U}.

Lemma normalize_basic_latin (text : str) :
  forallb is_basic_latin text = true ->
  normalize text = strip (re_sub_ws (List.map latin_lower text)).
Proof.
  intros Hlatin. unfold normalize, lower; cbv zeta.
  rewrite (lower_from_basic_latin text [] Hlatin). reflexivity.
Qed.

(** X11. A text of Basic Latin whitespace only, the empty text included,
    normalizes to the empty text, has no token, and gets the score 0.0 and
    the label neutral from the fallback. *)
Theorem blank_text_is_neutral (text : str) :
  forallb (fun c => is_basic_latin c && isspace c) text = true ->
  normalize text = [] /\ tokenize text = [] /\
  analyze_fallback_score text = 0.0 /\ analyze_fallback text = neutral.
Proof.
  intros Hblank.
  assert (Hlatin : forallb is_basic_latin text = true).
  { rewrite forallb_forall in Hblank |- *. intros c Hc.
    apply Hblank, andb_prop in Hc as [Hc _]. exact Hc. }
  assert (Hspace : forallb isspace text = true).
  { rewrite forallb_forall in Hblank |- *. intros c Hc.
    apply Hblank, andb_prop in Hc as [_ Hc]. exact Hc. }
  assert (Hsame : List.map latin_lower text = text).
  { rewrite <- (map_id text) at 2. apply map_ext_in. intros c Hc.
    apply whitespace_is_not_upper.
    rewrite forallb_forall in Hspace. exact (Hspace c Hc). }
  assert (Hnorm : normalize text = []).
  { rewrite (normalize_basic_latin text Hlatin), Hsame.
    apply strip_blank, collapse_ws_blank. exact Hspace. }
  assert (Hscore : analyze_fallback_score text = 0.0).
  { unfold analyze_fallback_score; cbv zeta.
    rewrite (basic_latin_total text Hlatin), Hnorm. reflexivity. }
  refine (conj Hnorm (conj _ (conj Hscore _))).
  - unfold tokenize; cbv zeta. rewrite Hnorm. reflexivity.
  - unfold analyze_fallback; cbv zeta. rewrite Hscore. reflexivity.
Qed.

(** X12. On Basic Latin texts the fallback does not see the case of the
    letters: two texts that agree once their capital letters are lowered get
    the same score and the same label. *)
Theorem fallback_ignores_latin_case (x y : str) :
  forallb is_basic_latin x = true -> forallb is_basic_latin y = true ->
  List.map latin_lower x = List.map latin_lower y ->
  analyze_fallback_score x = analyze_fallback_score y /\
  analyze_fallback x = analyze_fallback y.
Proof.
  intros Hx Hy Hsame.
  assert (Hnorm : normalize x = normalize y)
    by (rewrite (normalize_basic_latin x Hx), (normalize_basic_latin y Hy), Hsame;
        reflexivity).
  assert (Hscore : analyze_fallback_score x = analyze_fallback_score y).
  { rewrite !score_divides_total.
    rewrite (basic_latin_total x Hx), (basic_latin_total y Hy), Hnorm.
    reflexivity. }
  split; [exact Hscore|].
  unfold analyze_fallback; cbv zeta. rewrite Hscore. reflexivity.
Qed.

End BasicLatinTexts.

Lemma blank_text_is_neutral_witness :
  analyze_fallback [0x20; 0x09; 0x0A; 0x20]%N = neutral.
Proof.
  destruct (blank_text_is_neutral (U := basic_latin) [0x20; 0x09; 0x0A; 0x20]%N eq_refl)
    as (_ & _ & _ & Hlabel).
  exact Hlabel.
Defined.

Lemma fallback_ignores_latin_case_witness :
  analyze_fallback_score (u "I LOVE this!")
  = analyze_fallback_score (u "i love THIS!").
Proof.
  apply (proj1 (fallback_ignores_latin_case (U := basic_latin)
                  (u "I LOVE this!") (u "i love THIS!") eq_refl eq_refl eq_refl)).
Defined.

(** ** The cache of the strategy selector *)

Section StrategyCache.
Context `{CaseTables}.
Context {model : Type}.
(** The world at a first call and the world at a later call. *)
Variable path_exists path_exists' : str -> bool.
Variable load_model load_model' : str -> result model.
Variable predict_proba predict_proba' : model -> str -> result (gmap str float).




(** X15. The two entry points agree: in any state and world, the label of
    [analyze_strategy] is the label that [label_from_score] gives, under the
    default thresholds, to the score of [analyze_strategy_score], and the
    one raises exactly when the other does. *)
Theorem strategy_label_matches_score (text model_path : str)
    (st : cache_state model) :
  analyze_strategy path_exists load_model predict_proba text model_path st
  = match analyze_strategy_score path_exists load_model predict_proba
            text model_path st with
    | (Return s, st') =>
        (Return (label_from_score s default_pos_threshold default_neg_threshold),
         st')
    | (Raise e, st') => (Raise e, st')
    end.
Proof.
  unfold analyze_strategy, analyze_strategy_score, bind.
  destruct (_load_model_once path_exists load_model model_path st)
    as [[[m|]|e] st1]; reflexivity.
Qed.

(** X16. Whichever backend answers, a score returned by
    [analyze_strategy_score] lies in [-1, 1]. *)
Theorem strategy_score_in_unit (text model_path : str)
    (st st' : cache_state model) (s : float) :
  analyze_strategy_score path_exists load_model predict_proba text model_path st
  = (Return s, st') ->
  PrimFloat.leb (-1.0) s = true /\ PrimFloat.leb s 1.0 = true.
Proof.
  unfold analyze_strategy_score, bind.
  destruct (_load_model_once path_exists load_model model_path st)
    as [[[m|]|e] st1]; try discriminate.
  - unfold analyze_ml_score, bind, lift, ret.
    destruct (predict_proba m text) as [probs|e]; [|discriminate].
    destruct (getitem probs "positive") as [p|e]; [|discriminate].
    destruct (getitem probs "negative") as [n|e]; [|discriminate].
    intros [= <- _]. apply clamp_unit_range.
  - unfold ret. intros [= <- _].
    unfold analyze_fallback_score; cbv zeta. apply clamp_unit_range.
Qed.

End StrategyCache.



Lemma strategy_score_in_unit_witness :
  PrimFloat.leb (-1.0) (clamp_unit (0.9 - 0.05)) = true /\
  PrimFloat.leb (clamp_unit (0.9 - 0.05)) 1.0 = true.
Proof.
  apply (strategy_score_in_unit (model := unit) (fun _ => true)
           (fun _ => Return tt)
           (fun _ _ => Return (<[u "positive" := 0.9]> (<[u "negative" := 0.05]> ∅)))
           (u "fine") (u "models/sentiment.joblib") initial_cache
           (CacheState (Some tt) true)).
  vm_compute. reflexivity.
Defined.

(** ** Inference *)

Lemma dict_of_pairs_from (pairs : list (str * float)) (d : gmap str float)
    (label : str) :
  fold_left (fun d kv => <[kv.1 := kv.2]> d) pairs d !! label
  = match last_value label pairs with
    | Some v => Some v
    | None => d !! label
    end.
Proof.
  revert d. induction pairs as [|[k v] rest IH]; intros d; simpl; [reflexivity|].
  rewrite IH. destruct (last_value label rest); [reflexivity|].
  destruct (decide (k = label)) as [->|Hne].
  - apply lookup_insert_eq.
  - apply lookup_insert_ne. exact Hne.
Qed.

Lemma dict_of_pairs_lookup (pairs : list (str * float)) (label : str) :
  dict_of_pairs pairs !! label = last_value label pairs.
Proof.
  unfold dict_of_pairs. rewrite dict_of_pairs_from.
  destruct (last_value label pairs); [reflexivity | apply lookup_empty].
Qed.

Lemma last_value_None (label : str) (labels : list str) (probs : list float) :
  last_value label (zip labels probs) = None <->
  ~ In label (firstn (List.length probs) labels).
Proof.
  revert probs. induction labels as [|k labels IH]; intros probs.
  - simpl. rewrite firstn_nil. simpl. tauto.
  - destruct probs as [|p probs]; simpl; [tauto|].
    specialize (IH probs).
    destruct (last_value label (zip labels probs)).
    + split; [discriminate|]. intros Hnot.
      assert (Hout : ~ In label (firstn (List.length probs) labels)) by tauto.
      apply IH in Hout. discriminate.
    + destruct (decide (k = label)) as [->|Hne].
      * split; [discriminate|]. intros Hnot. exfalso. apply Hnot. left. reflexivity.
      * split; [|reflexivity]. intros _ [Heq | Hin]; [contradiction|].
        apply IH in Hin; [exact Hin | reflexivity].
Qed.

Section InferenceFacts.
Context `{CaseTables}.
Variable obj : Type.
Variable class_probabilities : obj -> obj -> str -> result (list float).
Variable iterate_labels : obj -> result (list str).

(** X17. [predict_proba] pairs the labels with the probabilities by
    position: a label gets the probability of its last paired position, and
    a label beyond the number of probabilities gets none. Without one of the
    keys vectorizer, model and labels in the model dictionary it raises
    [KeyError]. *)
Theorem predict_proba_pairs_by_position (model_dict : gmap str obj) (text : str) :
  (model_dict !! u "vectorizer" = None \/ model_dict !! u "model" = None \/
   model_dict !! u "labels" = None ->
   predict_proba obj class_probabilities iterate_labels model_dict text
   = Raise "KeyError"%string) /\
  (forall vectorizer clf stored probs labels,
     model_dict !! u "vectorizer" = Some vectorizer ->
     model_dict !! u "model" = Some clf ->
     model_dict !! u "labels" = Some stored ->
     class_probabilities vectorizer clf text = Return probs ->
     iterate_labels stored = Return labels ->
     exists d,
       predict_proba obj class_probabilities iterate_labels model_dict text
       = Return d /\
       (forall label, d !! label = last_value label (zip labels probs)) /\
       (forall label, d !! label = None <->
                      ~ In label (firstn (List.length probs) labels))).
Proof.
  split.
  - unfold predict_proba, model_getitem.
    destruct (model_dict !! u "vectorizer"); [|reflexivity].
    destruct (model_dict !! u "model"); [|reflexivity].
    destruct (model_dict !! u "labels"); [|reflexivity].
    intros [Hv | [Hm | Hl]]; discriminate.
  - intros vectorizer clf stored probs labels Hv Hm Hl Hprobs Hlabels.
    exists (dict_of_pairs (zip labels probs)).
    unfold predict_proba, model_getitem.
    rewrite Hv, Hm, Hl, Hprobs, Hlabels.
    refine (conj eq_refl (conj _ _)).
    + intros label. apply dict_of_pairs_lookup.
    + intros label. rewrite dict_of_pairs_lookup. apply last_value_None.
Qed.

(** X18. With a model dictionary whose parts answer, [analyze_ml_score]
    returns the clamped difference of the probabilities paired with the
    labels positive and negative, and raises [KeyError] when one of the two
    labels is paired with none, as when the classifier yields fewer
    probabilities than there are labels before them; the module variables
    are left as they were. *)
Theorem analyze_ml_score_outcome (model_dict : gmap str obj) (text : str)
    (vectorizer clf stored : obj) (probs : list float) (labels : list str)
    (st : cache_state (gmap str obj)) :
  model_dict !! u "vectorizer" = Some vectorizer ->
  model_dict !! u "model" = Some clf ->
  model_dict !! u "labels" = Some stored ->
  class_probabilities vectorizer clf text = Return probs ->
  iterate_labels stored = Return labels ->
  analyze_ml_score (predict_proba obj class_probabilities iterate_labels)
    model_dict text st
  = match last_value (u "positive") (zip labels probs),
          last_value (u "negative") (zip labels probs) with
    | Some p, Some n => (Return (clamp_unit (p - n)), st)
    | _, _ => (Raise "KeyError"%string, st)
    end.
Proof.
  intros Hv Hm Hl Hprobs Hlabels.
  unfold analyze_ml_score, bind, lift, ret, predict_proba, model_getitem, getitem.
  rewrite Hv, Hm, Hl, Hprobs, Hlabels, !dict_of_pairs_lookup.
  destruct (last_value (u "positive") (zip labels probs)); [|reflexivity].
  destruct (last_value (u "negative") (zip labels probs)); reflexivity.
Qed.

End InferenceFacts.

Lemma predict_proba_pairs_by_position_witness :
  predict_proba nat (fun _ _ _ => Return [0.2; 0.8]) (fun _ => Return LABELS)
    (delete (u "model") saved_model) (u "fine")
  = Raise "KeyError"%string /\
  exists d,
    predict_proba nat (fun _ _ _ => Return [0.2; 0.8]) (fun _ => Return LABELS)
      saved_model (u "fine") = Return d /\
    (forall label, d !! label = last_value label (zip LABELS [0.2; 0.8])) /\
    (forall label, d !! label = None <->
                   ~ In label (firstn (List.length [0.2; 0.8]) LABELS)).
Proof.
  split.
  - apply (proj1 (predict_proba_pairs_by_position nat
                    (fun _ _ _ => Return [0.2; 0.8]) (fun _ => Return LABELS)
                    (delete (u "model") saved_model) (u "fine"))).
    right. left. vm_compute. reflexivity.
  - apply (proj2 (predict_proba_pairs_by_position nat
                    (fun _ _ _ => Return [0.2; 0.8]) (fun _ => Return LABELS)
                    saved_model (u "fine")) 1%nat 2%nat 3%nat);
      vm_compute; reflexivity.
Defined.

Lemma analyze_ml_score_outcome_witness :
  analyze_ml_score
    (predict_proba nat (fun _ _ _ => Return [0.1; 0.2; 0.7]) (fun _ => Return LABELS))
    saved_model (u "fine") initial_cache
  = (Return (clamp_unit (0.7 - 0.1)), initial_cache) /\
  analyze_ml_score
    (predict_proba nat (fun _ _ _ => Return [0.2; 0.8]) (fun _ => Return LABELS))
    saved_model (u "fine") initial_cache
  = (Raise "KeyError"%string, initial_cache).
Proof.
  split.
  - rewrite (analyze_ml_score_outcome nat (fun _ _ _ => Return [0.1; 0.2; 0.7])
               (fun _ => Return LABELS) saved_model (u "fine") 1%nat 2%nat 3%nat
               [0.1; 0.2; 0.7] LABELS initial_cache);
      vm_compute; reflexivity.
  - rewrite (analyze_ml_score_outcome nat (fun _ _ _ => Return [0.2; 0.8])
               (fun _ => Return LABELS) saved_model (u "fine") 1%nat 2%nat 3%nat
               [0.2; 0.8] LABELS initial_cache);
      vm_compute; reflexivity.
Defined.

(** ** Loading the training data *)


Lemma split_tab_once_shape (line before_rev : str) :
  (no_tab line = true /\ split_tab_once before_rev line = [rev before_rev ++ line])
  \/ exists t l, line = t ++ TAB :: l /\ no_tab t = true /\
                 split_tab_once before_rev line = [rev before_rev ++ t; l].
Proof.
  revert before_rev. induction line as [|c r IH]; intros before_rev; simpl.
  - left. rewrite app_nil_r. split; reflexivity.
  - destruct (N.eqb_spec c TAB) as [-> | Hc].
    + right. exists [], r. rewrite app_nil_r.
      exact (conj eq_refl (conj eq_refl eq_refl)).
    + destruct (IH (c :: before_rev)) as [[Hno ->] | (t & l & -> & Hno & ->)].
      * left. simpl. rewrite <- app_assoc. split; [exact Hno | reflexivity].
      * right. exists (c :: t), l. apply N.eqb_neq in Hc.
        unfold no_tab in *. simpl. rewrite Hc, <- app_assoc. simpl.
        exact (conj eq_refl (conj Hno eq_refl)).
Qed.

Lemma ends_well_app (a l : str) : l <> [] -> ends_well (a ++ l) = ends_well l.
Proof.
  intros Hl. induction a as [|c a IH]; [reflexivity|].
  simpl app. rewrite ends_well_tail; [exact IH|].
  intros Heq. apply app_eq_nil in Heq as [_ Heq]. contradiction.
Qed.

(** What one line adds to the two lists: nothing, or one clean text and one
    clean label. *)
Lemma load_tsv_line_shape (acc : list str * list str) (line : str) :
  load_tsv_line acc line = acc
  \/ exists t l, strip line = t ++ TAB :: l /\
                 clean_text t = true /\ clean_label l = true /\
                 load_tsv_line acc line = (acc.1 ++ [t], acc.2 ++ [l]).
Proof.
  unfold load_tsv_line; cbv zeta.
  destruct (nonempty (strip line)) eqn:Hne; [|left; reflexivity]. simpl.
  destruct (split_tab_once_shape (strip line) []) as [[_ ->] | (t & l & Hline & Hno & ->)];
    [left; reflexivity|].
  right. exists t, l. simpl.
  pose proof (strip_starts_well line) as Hstart.
  assert (Hend : ends_well (strip line) = true)
    by (unfold strip, strip_by; apply rstrip_ends_well).
  rewrite Hline in Hstart, Hend.
  refine (conj Hline (conj _ (conj _ eq_refl))).
  - unfold clean_text. rewrite Hno.
    destruct t as [|c t]; [vm_compute in Hstart; discriminate|].
    simpl in Hstart |- *. rewrite Hstart. reflexivity.
  - unfold clean_label.
    destruct l as [|c l].
    + rewrite ends_well_last in Hend. vm_compute in Hend. discriminate.
    + rewrite (ends_well_app t (TAB :: c :: l)) in Hend by discriminate.
      rewrite ends_well_tail in Hend by discriminate.
      rewrite Hend. reflexivity.
Qed.

Lemma load_tsv_line_adds (acc : list str * list str) (line : str) :
  load_tsv_line acc line
  = (acc.1 ++ (load_tsv_line ([], []) line).1,
     acc.2 ++ (load_tsv_line ([], []) line).2).
Proof.
  unfold load_tsv_line; cbv zeta.
  destruct (nonempty (strip line)); simpl;
    [|rewrite !app_nil_r; destruct acc; reflexivity].
  destruct (split_tab_once_shape (strip line) []) as [[_ ->] | (t & l & _ & _ & ->)];
    simpl; [rewrite !app_nil_r; destruct acc|]; reflexivity.
Qed.

Lemma load_tsv_from (lines : list str) (acc : list str * list str) :
  fold_left load_tsv_line lines acc
  = (acc.1 ++ (load_tsv lines).1, acc.2 ++ (load_tsv lines).2).
Proof.
  unfold load_tsv. revert acc.
  induction lines as [|line lines IH]; intros acc; simpl.
  - rewrite !app_nil_r. destruct acc; reflexivity.
  - rewrite (IH (load_tsv_line acc line)), (IH (load_tsv_line ([], []) line)).
    rewrite (load_tsv_line_adds acc line). simpl.
    rewrite !app_assoc. reflexivity.
Qed.

Lemma load_tsv_append (first second : list str) :
  load_tsv (first ++ second)
  = ((load_tsv first).1 ++ (load_tsv second).1,
     (load_tsv first).2 ++ (load_tsv second).2).
Proof.
  unfold load_tsv at 1. rewrite fold_left_app.
  fold (load_tsv first). apply load_tsv_from.
Qed.

(** X19. [load_tsv] returns as many labels as texts; every text it returns
    is non-empty, holds no tab and does not start with whitespace, and every
    label is non-empty and does not end with whitespace. *)
Theorem load_tsv_aligned (lines : list str) :
  List.length (load_tsv lines).1 = List.length (load_tsv lines).2 /\
  Forall (fun t => clean_text t = true) (load_tsv lines).1 /\
  Forall (fun l => clean_label l = true) (load_tsv lines).2.
Proof.
  unfold load_tsv.
  assert (Hinv : forall acc,
    (List.length acc.1 = List.length acc.2 /\
     Forall (fun t => clean_text t = true) acc.1 /\
     Forall (fun l => clean_label l = true) acc.2) ->
    List.length (fold_left load_tsv_line lines acc).1
    = List.length (fold_left load_tsv_line lines acc).2 /\
    Forall (fun t => clean_text t = true) (fold_left load_tsv_line lines acc).1 /\
    Forall (fun l => clean_label l = true) (fold_left load_tsv_line lines acc).2).
  { induction lines as [|line lines IH]; intros acc Hacc; simpl; [exact Hacc|].
    apply IH.
    destruct (load_tsv_line_shape acc line) as [-> | (t & l & _ & Ht & Hl & ->)];
      [exact Hacc|].
    destruct Hacc as (Hlen & Htexts & Hlabels). simpl.
    rewrite !length_app, Hlen. simpl.
    repeat apply conj; [reflexivity | |]; apply Forall_app; split; auto. }
  apply Hinv. simpl. repeat apply conj; [reflexivity | |]; constructor.
Qed.

(** X20. Loading is done line by line: the rows of two runs of lines put
    end to end are the rows of the first followed by the rows of the second;
    a line whose stripped form is empty or holds no tab gives no row. *)
Theorem load_tsv_app (first second : list str) (line : str) :
  load_tsv (first ++ second)
  = ((load_tsv first).1 ++ (load_tsv second).1,
     (load_tsv first).2 ++ (load_tsv second).2) /\
  (no_tab (strip line) = true -> load_tsv [line] = ([], [])).
Proof.
  split; [apply load_tsv_append|].
  intros Hno. unfold load_tsv, load_tsv_line; simpl.
    destruct (nonempty (strip line)); [|reflexivity]. simpl.
    destruct (split_tab_once_shape (strip line) []) as [[_ ->] | (t & l & Hline & _ & _)];
      [reflexivity|].
    rewrite Hline in Hno. unfold no_tab in Hno.
    rewrite forallb_app in Hno. apply andb_prop in Hno as [_ Hno].
    simpl in Hno. discriminate.
Qed.

Lemma load_tsv_app_witness :
  load_tsv [[0x0A]%N] = ([], []) /\ load_tsv [u "no label here"] = ([], []).
Proof.
  split.
  - apply (proj2 (load_tsv_app [] [] [0x0A]%N)). reflexivity.
  - apply (proj2 (load_tsv_app [] [] (u "no label here"))). reflexivity.
Defined.



